(** * go-dropbox: the content hash and the small pure helpers of [files.go]

    A shallow embedding of the parts of [files.go] that carry logic:
    [ContentHash] / [FileContentHash] (the block-wise SHA-256 of SHA-256
    fingerprint), [UploadInput.SetMode] / [GetMode], and the [Metadata]
    classification predicates.

    Go's standard library is outside the repository; the pieces the code
    calls ([crypto/sha256], [fmt.Sprintf "%x"], [io.Reader], [bytes.Reader],
    [os.Open], [strings.ToLower]) are modelled after their documented
    behaviour and kept in modules named after the Go packages. *)

From Stdlib Require Import String Ascii ZArith NArith Arith List Bool Lia.
From Stdlib Require Import Strings.Byte.
Import ListNotations.
#[local] Open Scope string_scope.
#[local] Open Scope list_scope.
#[local] Open Scope nat_scope.

Abbreviation byte := Corelib.Init.Byte.byte.

(* ================================================================== *)
(** ** Package [crypto/sha256] (FIPS 180-4), on 32-bit words kept in [Z] *)

Module sha256.
Local Open Scope Z_scope.

Definition byte_to_Z (b : byte) : Z := Z.of_N (Byte.to_N b).

Definition Z_to_byte (z : Z) : byte :=
  match Byte.of_N (Z.to_N (z mod 256)) with
  | Some b => b
  | None => Byte.x00
  end.

(** [uint32] arithmetic: every result is masked back to 32 bits. *)
Definition mask32 : Z := 0xffffffff.
Definition add32 (x y : Z) : Z := Z.land (x + y) mask32.
Definition not32 (x : Z) : Z := Z.lxor x mask32.
Definition rotr (x n : Z) : Z :=
  Z.lor (Z.shiftr x n) (Z.land (Z.shiftl x (32 - n)) mask32).

(** The round constants [_K[i]]. *)
Definition _K (i : nat) : Z :=
  match i with
  | 0%nat => 0x428a2f98
  | 1%nat => 0x71374491
  | 2%nat => 0xb5c0fbcf
  | 3%nat => 0xe9b5dba5
  | 4%nat => 0x3956c25b
  | 5%nat => 0x59f111f1
  | 6%nat => 0x923f82a4
  | 7%nat => 0xab1c5ed5
  | 8%nat => 0xd807aa98
  | 9%nat => 0x12835b01
  | 10%nat => 0x243185be
  | 11%nat => 0x550c7dc3
  | 12%nat => 0x72be5d74
  | 13%nat => 0x80deb1fe
  | 14%nat => 0x9bdc06a7
  | 15%nat => 0xc19bf174
  | 16%nat => 0xe49b69c1
  | 17%nat => 0xefbe4786
  | 18%nat => 0x0fc19dc6
  | 19%nat => 0x240ca1cc
  | 20%nat => 0x2de92c6f
  | 21%nat => 0x4a7484aa
  | 22%nat => 0x5cb0a9dc
  | 23%nat => 0x76f988da
  | 24%nat => 0x983e5152
  | 25%nat => 0xa831c66d
  | 26%nat => 0xb00327c8
  | 27%nat => 0xbf597fc7
  | 28%nat => 0xc6e00bf3
  | 29%nat => 0xd5a79147
  | 30%nat => 0x06ca6351
  | 31%nat => 0x14292967
  | 32%nat => 0x27b70a85
  | 33%nat => 0x2e1b2138
  | 34%nat => 0x4d2c6dfc
  | 35%nat => 0x53380d13
  | 36%nat => 0x650a7354
  | 37%nat => 0x766a0abb
  | 38%nat => 0x81c2c92e
  | 39%nat => 0x92722c85
  | 40%nat => 0xa2bfe8a1
  | 41%nat => 0xa81a664b
  | 42%nat => 0xc24b8b70
  | 43%nat => 0xc76c51a3
  | 44%nat => 0xd192e819
  | 45%nat => 0xd6990624
  | 46%nat => 0xf40e3585
  | 47%nat => 0x106aa070
  | 48%nat => 0x19a4c116
  | 49%nat => 0x1e376c08
  | 50%nat => 0x2748774c
  | 51%nat => 0x34b0bcb5
  | 52%nat => 0x391c0cb3
  | 53%nat => 0x4ed8aa4a
  | 54%nat => 0x5b9cca4f
  | 55%nat => 0x682e6ff3
  | 56%nat => 0x748f82ee
  | 57%nat => 0x78a5636f
  | 58%nat => 0x84c87814
  | 59%nat => 0x8cc70208
  | 60%nat => 0x90befffa
  | 61%nat => 0xa4506ceb
  | 62%nat => 0xbef9a3f7
  | _ => 0xc67178f2
  end.

(** The eight chaining words [h0..h7]. *)
Record state : Type := mkState {
  h0 : Z; h1 : Z; h2 : Z; h3 : Z; h4 : Z; h5 : Z; h6 : Z; h7 : Z
}.

Definition init : state :=
  mkState 0x6a09e667 0xbb67ae85 0x3c6ef372 0xa54ff53a
          0x510e527f 0x9b05688c 0x1f83d9ab 0x5be0cd19.

(** Four bytes, big endian, to one word; and back. *)
Definition be32 (b3 b2 b1 b0 : Z) : Z :=
  Z.lor (Z.lor (Z.shiftl b3 24) (Z.shiftl b2 16)) (Z.lor (Z.shiftl b1 8) b0).

Fixpoint words (n : nat) (p : list Z) : list Z :=
  match n, p with
  | S n', b3 :: b2 :: b1 :: b0 :: p' => be32 b3 b2 b1 b0 :: words n' p'
  | _, _ => []
  end.

Definition putUint32 (w : Z) : list byte :=
  [ Z_to_byte (Z.shiftr w 24); Z_to_byte (Z.shiftr w 16);
    Z_to_byte (Z.shiftr w 8); Z_to_byte w ].

(** The message schedule, most recent word first: [w] holds
    [w[i-1]; w[i-2]; ...] and is extended by [w[i]]. *)
Fixpoint schedule (n : nat) (w : list Z) : list Z :=
  match n with
  | O => w
  | S n' =>
      let v1 := nth 1 w 0 in
      let t1 := Z.lxor (Z.lxor (rotr v1 17) (rotr v1 19)) (Z.shiftr v1 10) in
      let v2 := nth 14 w 0 in
      let t2 := Z.lxor (Z.lxor (rotr v2 7) (rotr v2 18)) (Z.shiftr v2 3) in
      let wi := add32 (add32 (add32 t1 (nth 6 w 0)) t2) (nth 15 w 0) in
      schedule n' (wi :: w)
  end.

(** One of the 64 rounds on the working variables [a..h]. *)
Definition round (s : state) (kw : Z * Z) : state :=
  let '(k, w) := kw in
  let '(mkState a b c d e f g h) := s in
  let t1 :=
    add32 (add32 (add32 (add32 h
      (Z.lxor (Z.lxor (rotr e 6) (rotr e 11)) (rotr e 25)))
      (Z.lxor (Z.land e f) (Z.land (not32 e) g))) k) w in
  let t2 :=
    add32 (Z.lxor (Z.lxor (rotr a 2) (rotr a 13)) (rotr a 22))
          (Z.lxor (Z.lxor (Z.land a b) (Z.land a c)) (Z.land b c)) in
  mkState (add32 t1 t2) a b c (add32 d t1) e f g.

(** [blockGeneric] on one 64-byte chunk. *)
Definition block (s : state) (p : list Z) : state :=
  let w := rev (schedule 48 (rev (words 16 p))) in
  let r := fold_left round (combine (map _K (seq 0 64)) w) s in
  mkState (add32 (h0 s) (h0 r)) (add32 (h1 s) (h1 r))
          (add32 (h2 s) (h2 r)) (add32 (h3 s) (h3 r))
          (add32 (h4 s) (h4 r)) (add32 (h5 s) (h5 r))
          (add32 (h6 s) (h6 r)) (add32 (h7 s) (h7 r)).

Fixpoint blocks (n : nat) (s : state) (p : list Z) : state :=
  match n with
  | O => s
  | S n' => blocks n' (block s (firstn 64 p)) (skipn 64 p)
  end.

(** The padding of [checkSum]: a [0x80] byte, zeros up to 56 modulo 64,
    then the bit length as a big-endian [uint64]. *)
Definition padding (len : Z) : list Z :=
  let t := if len mod 64 <? 56 then 56 - len mod 64
           else 64 + 56 - len mod 64 in
  let bits := (len * 8) mod 2 ^ 64 in
  0x80 :: repeat 0 (Z.to_nat (t - 1))
    ++ map (fun i => Z.land (Z.shiftr bits (8 * i)) 0xff)
           [7; 6; 5; 4; 3; 2; 1; 0].

Definition checkSum (data : list byte) : state :=
  let p := map byte_to_Z data in
  let padded := p ++ padding (Z.of_nat (length data)) in
  blocks (Nat.div (length padded) 64) init padded.

(** [sha256.Sum256]: the 32-byte digest of [data]. *)
Definition Sum256 (data : list byte) : list byte :=
  let '(mkState a b c d e f g h) := checkSum data in
  putUint32 a ++ putUint32 b ++ putUint32 c ++ putUint32 d ++
  putUint32 e ++ putUint32 f ++ putUint32 g ++ putUint32 h.

(** The streaming digest of [sha256.New]: what it has been given so far.
    [Write] appends; [Sum] appends the digest of everything written to
    its argument and leaves the digest unchanged. *)
Definition digest : Type := list byte.
Definition New : digest := [].
Definition Write (d : digest) (p : list byte) : digest := d ++ p.
Definition Sum (d : digest) (b : list byte) : list byte := b ++ Sum256 d.

End sha256.

(* ================================================================== *)
(** ** [fmt.Sprintf("%x", b)] on a byte slice: two lowercase digits a byte *)

Module fmt.

Definition hexDigit (n : N) : ascii :=
  if (n <? 10)%N then ascii_of_N (48 + n) else ascii_of_N (87 + n).

Fixpoint hex (b : list byte) : string :=
  match b with
  | [] => EmptyString
  | x :: b' =>
      String (hexDigit (N.div (Byte.to_N x) 16))
        (String (hexDigit (N.modulo (Byte.to_N x) 16)) (hex b'))
  end.

End fmt.

(* ================================================================== *)
(** ** Package [io]: error values and the [Reader] interface *)

Module io.

(** Go's [error] values, as far as the code and its callers tell them
    apart: the sentinel [io.EOF] (compared by identity), the
    [*os.PathError] of a failed file operation, and any other error. *)
Inductive error : Type :=
| EOF
| PathError (Op Path Err : string)
| ErrOther (msg : string).

Definition isEOF (e : error) : bool :=
  match e with EOF => true | _ => false end.

(** [Read(p []byte) (n int, err error)]: [Read r cap] is one call on a
    buffer of [cap] bytes.  It gives the bytes stored in [p[:n]] (so [n]
    is their number), the error ([None] is Go's [nil]) and the reader
    afterwards.  The interface's contract [0 <= n <= len(p)] is part of
    the class. *)
Class Reader (R : Type) : Type := {
  Read : R -> nat -> list byte * option error * R;
  Read_le : forall r cap, length (fst (fst (Read r cap))) <= cap
}.

End io.
Export io.

(* ================================================================== *)
(** ** The readers a caller hands to [ContentHash] *)

(** [bytes.Reader] (and [strings.Reader]): [unread] is [s[i:]]. *)
Module bytes.

Record Reader : Type := NewReader { unread : list byte }.

Definition Read (r : Reader) (cap : nat) : list byte * option error * Reader :=
  match unread r with
  | [] => ([], Some EOF, r)
  | _ => (firstn cap (unread r), None, NewReader (skipn cap (unread r)))
  end.

Lemma Reader_Read_le r cap : length (fst (fst (Read r cap))) <= cap.
Proof.
  unfold Read. destruct (unread r); simpl fst.
  - simpl. lia.
  - rewrite length_firstn. lia.
Qed.

#[global] Instance reader : io.Reader Reader := {| io.Read := Read; io.Read_le := Reader_Read_le |}.

End bytes.

(** Package [testing/iotest]: the standard test doubles. *)
Module iotest.

(** [OneByteReader(r)]: every non-empty [Read] reads one byte from [r]. *)
Record OneByteReader (R : Type) : Type := NewOneByteReader { one_r : R }.
Arguments NewOneByteReader {R} _.
Arguments one_r {R} _.

(** [TimeoutReader(r)]: the second [Read] returns [ErrTimeout] and no
    data; every other call is passed to [r]. *)
Record TimeoutReader (R : Type) : Type :=
  mkTimeoutReader { timeout_r : R; count : nat }.
Arguments mkTimeoutReader {R} _ _.
Arguments timeout_r {R} _.
Arguments count {R} _.

Definition ErrTimeout : error := ErrOther "timeout".

Section Doubles.
Context {R : Type} `{io.Reader R}.

Definition OneByteReader_Read (o : OneByteReader R) (cap : nat)
  : list byte * option error * OneByteReader R :=
  if cap =? 0 then ([], None, o)
  else let '(data, err, r') := io.Read (one_r o) 1 in
       (data, err, NewOneByteReader r').

Lemma OneByteReader_Read_le o cap :
  length (fst (fst (OneByteReader_Read o cap))) <= cap.
Proof.
  unfold OneByteReader_Read. destruct (Nat.eqb_spec cap 0) as [->|Hc].
  - simpl. lia.
  - pose proof (io.Read_le (one_r o) 1) as Hle.
    destruct (io.Read (one_r o) 1) as [[data err] r']. simpl in *. lia.
Qed.

Definition NewTimeoutReader (r : R) : TimeoutReader R := mkTimeoutReader r 0.

Definition TimeoutReader_Read (t : TimeoutReader R) (cap : nat)
  : list byte * option error * TimeoutReader R :=
  let c := S (count t) in
  if c =? 2 then ([], Some ErrTimeout, mkTimeoutReader (timeout_r t) c)
  else let '(data, err, r') := io.Read (timeout_r t) cap in
       (data, err, mkTimeoutReader r' c).

Lemma TimeoutReader_Read_le t cap :
  length (fst (fst (TimeoutReader_Read t cap))) <= cap.
Proof.
  unfold TimeoutReader_Read. destruct (S (count t) =? 2).
  - simpl. lia.
  - pose proof (io.Read_le (timeout_r t) cap) as Hle.
    destruct (io.Read (timeout_r t) cap) as [[data err] r']. simpl in *. lia.
Qed.

End Doubles.

#[global] Instance oneByteReader {R} `{io.Reader R} : io.Reader (OneByteReader R) :=
  {| io.Read := OneByteReader_Read; io.Read_le := OneByteReader_Read_le |}.

#[global] Instance timeoutReader {R} `{io.Reader R} : io.Reader (TimeoutReader R) :=
  {| io.Read := TimeoutReader_Read; io.Read_le := TimeoutReader_Read_le |}.

End iotest.

(* ================================================================== *)
(** ** [files.go]: the content hash *)

Definition hashBlockSize : nat := 4 * 1024 * 1024.

Section ContentHash.
Context {R : Type} `{io.Reader R}.

(** One [n, err = r.Read(buf)] followed by the two [if]s under it, with
    [data] for [buf[:n]]: [inl err] is the early [return "", err];
    otherwise the block digest of [data] has been written to [resultHash]
    when [n > 0]. *)
Definition readBlock (r : R) (resultHash : sha256.digest)
  : error + (nat * option error * sha256.digest * R) :=
  let '(data, err, r') := io.Read r hashBlockSize in
  let n := length data in
  match err with
  | Some e =>
      if negb (io.isEOF e) then inl e
      else inr (n, err,
                if 0 <? n then sha256.Write resultHash (sha256.Sum256 data)
                else resultHash, r')
  | None =>
      inr (n, err,
           if 0 <? n then sha256.Write resultHash (sha256.Sum256 data)
           else resultHash, r')
  end.

Definition isNil (err : option error) : bool :=
  match err with None => true | Some _ => false end.

(** [for n == hashBlockSize && err == nil { ... }]; [fuel] bounds the
    number of iterations and [None] means it ran out.  The result is the
    early error or [resultHash] when the loop is left. *)
Fixpoint hashLoop (fuel : nat) (r : R) (n : nat) (err : option error)
    (resultHash : sha256.digest) : option (error + sha256.digest) :=
  if (n =? hashBlockSize) && isNil err then
    match fuel with
    | O => None
    | S fuel' =>
        match readBlock r resultHash with
        | inl e => Some (inl e)
        | inr (n', err', resultHash', r') => hashLoop fuel' r' n' err' resultHash'
        end
    end
  else Some (inr resultHash).

(** [resultHash] when [ContentHash] reaches its last line, or the error
    of an early return. *)
Definition hashBlocks (fuel : nat) (r : R) : option (error + sha256.digest) :=
  match readBlock r sha256.New with
  | inl e => Some (inl e)
  | inr (n, err, resultHash, r') => hashLoop fuel r' n err resultHash
  end.

(** [ContentHash(r) (string, error)]. *)
Definition ContentHash (fuel : nat) (r : R) : option (string * option error) :=
  match hashBlocks fuel r with
  | None => None
  | Some (inl e) => Some (EmptyString, Some e)
  | Some (inr resultHash) => Some (fmt.hex (sha256.Sum resultHash []), None)
  end.

End ContentHash.

(** A Go string literal as its bytes. *)
Definition bytes_of_string (s : string) : list byte := list_byte_of_string s.

(* ================================================================== *)
(** ** The fingerprint as the specification words it

    Blocks of 4 MiB (the last one possibly shorter, never empty), the
    digest of each appended to an accumulator, the digest of the
    accumulator in lowercase hex. *)

Fixpoint splitBlocks (fuel size : nat) (s : list byte) : list (list byte) :=
  match fuel, s with
  | S fuel', _ :: _ => firstn size s :: splitBlocks fuel' size (skipn size s)
  | _, _ => []
  end.

Definition spec_blocks (s : list byte) : list (list byte) :=
  splitBlocks (length s) hashBlockSize s.

Definition spec_accumulator (s : list byte) : list byte :=
  concat (map sha256.Sum256 (spec_blocks s)).

Definition spec_contentHash (s : list byte) : string :=
  fmt.hex (sha256.Sum256 (spec_accumulator s)).

(** [BlockReads r s]: read with the 4 MiB buffer of [ContentHash], the
    reader [r] hands over the content [s] in reads that fill the buffer
    while enough content is left, and signals the end of the stream either
    together with the last bytes or by a read of zero bytes with [EOF]. *)
Inductive BlockReads {R : Type} `{io.Reader R} : R -> list byte -> Prop :=
| BlockReads_eof r r' :
    io.Read r hashBlockSize = ([], Some EOF, r') ->
    BlockReads r []
| BlockReads_last r r' d :
    d <> [] ->
    io.Read r hashBlockSize = (d, Some EOF, r') ->
    BlockReads r d
| BlockReads_short r r' d :
    d <> [] -> length d < hashBlockSize ->
    io.Read r hashBlockSize = (d, None, r') ->
    BlockReads r' [] ->
    BlockReads r d
| BlockReads_full r r' d s :
    length d = hashBlockSize ->
    io.Read r hashBlockSize = (d, None, r') ->
    BlockReads r' s ->
    BlockReads r (d ++ s).

(** Lowercase hexadecimal digits, and the value of one. *)
Definition isLowerHex (c : ascii) : bool :=
  let n := N_of_ascii c in
  ((48 <=? n) && (n <=? 57) || (97 <=? n) && (n <=? 102))%N.

Definition unhexDigit (c : ascii) : N :=
  let n := N_of_ascii c in
  if (n <? 58)%N then (n - 48)%N else (n - 87)%N.

(** Two bytes that are the same but for the case of an ASCII letter, and
    two strings that are so byte by byte; written without [lowerByte]. *)
Definition eqFoldByte (c d : ascii) : bool :=
  let m := N_of_ascii c in
  let n := N_of_ascii d in
  ((m =? n)
   || ((65 <=? m) && (m <=? 90) && (n =? m + 32))
   || ((65 <=? n) && (n <=? 90) && (m =? n + 32)))%N.

Fixpoint equalFoldASCII (s t : string) : bool :=
  match s, t with
  | EmptyString, EmptyString => true
  | String c s', String d t' => eqFoldByte c d && equalFoldASCII s' t'
  | _, _ => false
  end.

(** The code of a byte's lowercase form. *)
Definition lowerCode (n : N) : N :=
  if ((65 <=? n) && (n <=? 90))%N then (n + 32)%N else n.

(** [FullReads r k r']: [k] reads that each fill the buffer without an
    error take the reader from [r] to [r']. *)
Inductive FullReads {R : Type} `{io.Reader R} : R -> nat -> R -> Prop :=
| FullReads_O r : FullReads r 0 r
| FullReads_S r d r1 k r' :
    io.Read r hashBlockSize = (d, None, r1) -> length d = hashBlockSize ->
    FullReads r1 k r' -> FullReads r (S k) r'.

(* ================================================================== *)
(** ** Package [os]: the files [FileContentHash] opens *)

Module os.

(** What a path names: a regular file (which the caller may or may not
    be allowed to read) or a directory. *)
Inductive node : Type :=
| RegularFile (readable : bool) (contents : list byte)
| Directory.

Definition FileSystem : Type := string -> option node.

(** An open [*os.File]: [unread] is the content past the file offset. *)
Record File : Type := mkFile {
  Name : string;
  isDir : bool;
  unread : list byte
}.

(** [os.Open]: a missing or unreadable path fails with a [*PathError]
    whose [Op] is ["open"]; a directory opens, and fails when read. *)
Definition Open (fs : FileSystem) (name : string) : File + error :=
  match fs name with
  | None => inr (PathError "open" name "no such file or directory")
  | Some (RegularFile false _) => inr (PathError "open" name "permission denied")
  | Some (RegularFile true contents) => inl (mkFile name false contents)
  | Some Directory => inl (mkFile name true [])
  end.

(** [File.Read]: up to [cap] bytes, and all [cap] of them while the
    file has that much left; [0, io.EOF] at the end of the file; a failure
    is a [*PathError] whose [Op] is ["read"]. *)
Definition Read (f : File) (cap : nat) : list byte * option error * File :=
  if cap =? 0 then ([], None, f)
  else if isDir f then ([], Some (PathError "read" (Name f) "is a directory"), f)
  else match unread f with
       | [] => ([], Some EOF, f)
       | _ => (firstn cap (unread f), None,
               mkFile (Name f) false (skipn cap (unread f)))
       end.

Lemma File_Read_le f cap : length (fst (fst (Read f cap))) <= cap.
Proof.
  unfold Read. destruct (cap =? 0); [simpl; lia|].
  destruct (isDir f); [simpl; lia|].
  destruct (unread f); simpl fst; [simpl; lia|].
  rewrite length_firstn. lia.
Qed.

#[global] Instance reader : io.Reader File := {| io.Read := Read; io.Read_le := File_Read_le |}.

End os.

(** An open regular file answers like a [bytes.Reader] on what is left
    of its content. *)
Definition file_as_bytes (f : os.File) (b : bytes.Reader) : Prop :=
  os.isDir f = false /\ os.unread f = bytes.unread b.

(** [FileContentHash(filename) (string, error)].  The deferred [f.Close()]
    releases the handle on return and has no part in the values returned. *)
Definition FileContentHash (fuel : nat) (fs : os.FileSystem) (filename : string)
  : option (string * option error) :=
  match os.Open fs filename with
  | inr err => Some (EmptyString, Some err)
  | inl f => ContentHash fuel f
  end.

(* ================================================================== *)
(** ** [files.go]: write modes and [UploadInput] *)

Definition WriteMode : Type := string.

Definition WriteModeAdd : WriteMode := "add".
Definition WriteModeOverwrite : WriteMode := "overwrite".
Definition WriteModeUpdate : WriteMode := "update".

Module writeModeUpdate.
Record t : Type := mk { Tag : string; Rev : string }.
End writeModeUpdate.

Definition newWriteModeUpdate (rev : string) : writeModeUpdate.t :=
  {| writeModeUpdate.Tag := "update"; writeModeUpdate.Rev := rev |}.

(** A value of some other dynamic type that an [interface{}] can hold
    (what JSON decoding or a caller may have stored). *)
Inductive goValue : Type :=
| GoString (s : string)
| GoBool (b : bool)
| GoInt (n : Z)
| GoFloat64 (bits : Z).

(** The dynamic value of the field [Mode interface{}]: the nil interface,
    a [*writeModeUpdate] ([None] is the nil pointer of that type), a
    [WriteMode], or a value of any other type. *)
Inductive modeValue : Type :=
| ModeNil
| ModeUpdatePtr (p : option writeModeUpdate.t)
| ModeWriteMode (m : WriteMode)
| ModeOther (v : goValue).

Module UploadInput.

(** The fields of [UploadInput] but [PropertyGroups] and [Reader], which
    no method below reads or writes. *)
Record t : Type := mk {
  Path : string;
  Mode : modeValue;
  AutoRename : bool;
  ClientModified : string;
  Mute : bool;
  StrictConflict : bool
}.

Definition withMode (i : t) (m : modeValue) : t :=
  mk (Path i) m (AutoRename i) (ClientModified i) (Mute i) (StrictConflict i).

(** [NewUploadInput]. *)
Definition NewUploadInput : t :=
  mk EmptyString (ModeWriteMode WriteModeAdd) false EmptyString false false.

(** [func (i *UploadInput) SetMode(mode WriteMode, rev string)]: the
    receiver after the call. *)
Definition SetMode (i : t) (mode : WriteMode) (rev : string) : t :=
  if String.eqb mode WriteModeUpdate
  then withMode i (ModeUpdatePtr (Some (newWriteModeUpdate rev)))
  else withMode i (ModeWriteMode mode).

(** [func (i *UploadInput) GetMode() (mode WriteMode, rev string)];
    [None] is the panic of [m.Rev] on a nil [*writeModeUpdate]. *)
Definition GetMode (i : t) : option (WriteMode * string) :=
  match Mode i with
  | ModeUpdatePtr (Some m) => Some (WriteModeUpdate, writeModeUpdate.Rev m)
  | ModeUpdatePtr None => None
  | ModeWriteMode m => Some (m, EmptyString)
  | ModeNil | ModeOther _ => Some (EmptyString, EmptyString)
  end.

(** [checkMode]. *)
Definition checkMode (i : t) : t :=
  match Mode i with
  | ModeNil => SetMode i WriteModeAdd EmptyString
  | _ => i
  end.

End UploadInput.

(* ================================================================== *)
(** ** Package [strings] and the [Metadata] predicates *)

Module strings.

Fixpoint mapBytes (f : ascii -> ascii) (s : string) : string :=
  match s with
  | EmptyString => EmptyString
  | String c s' => String (f c) (mapBytes f s')
  end.

Fixpoint isASCII (s : string) : bool :=
  match s with
  | EmptyString => true
  | String c s' => (N_of_ascii c <? 128)%N && isASCII s'
  end.

(** ['A' <= c && c <= 'Z'] then [c += 'a' - 'A']. *)
Definition lowerByte (c : ascii) : ascii :=
  let n := N_of_ascii c in
  if ((65 <=? n) && (n <=? 90))%N then ascii_of_N (n + 32) else c.

Section ToLower.
(** [Map(unicode.ToLower, s)], the path taken by a string with a
    byte outside ASCII; the Unicode tables are not part of this
    development. *)
Variable unicodeToLower : string -> string.

(** [strings.ToLower]. *)
Definition ToLower (s : string) : string :=
  if isASCII s then mapBytes lowerByte s else unicodeToLower s.
End ToLower.

End strings.

Definition MetadataTypeFile : string := "file".
Definition MetadataTypeFolder : string := "folder".
Definition MetadataTypeDeleted : string := "deleted".

Module Metadata.

(** The scalar fields of [Metadata]; the times and the optional
    sub-records play no part in the predicates. *)
Record t : Type := mk {
  Tag : string;
  Name : string;
  PathLower : string;
  PathDisplay : string;
  Rev : string;
  Size : N;
  ID : string;
  IsDownloadable : bool;
  HasExplicitSharedMembers : bool;
  ContentHash : string
}.

Section Predicates.
Variable unicodeToLower : string -> string.

Definition IsFile (m : t) : bool :=
  String.eqb (strings.ToLower unicodeToLower (Tag m)) MetadataTypeFile.

Definition IsFolder (m : t) : bool :=
  String.eqb (strings.ToLower unicodeToLower (Tag m)) MetadataTypeFolder.

Definition IsDeleted (m : t) : bool :=
  String.eqb (strings.ToLower unicodeToLower (Tag m)) MetadataTypeDeleted.
End Predicates.

End Metadata.

(* ================================================================== *)
(** ** [files.go]: paths and the calls that prepare their input *)

(** [normalizePath]. *)
Definition normalizePath (s : string) : string :=
  if String.eqb s "/" then EmptyString else s.

Module ListFolderInput.

Record t : Type := mk {
  Path : string;
  Recursive : bool;
  IncludeMediaInfo : bool;
  IncludeDeleted : bool;
  IncludeHasExplicitSharedMembers : bool;
  IncludeMountedFolders : bool;
  IncludeNonDownloadableFiles : bool
}.

Definition withPath (i : t) (p : string) : t :=
  mk p (Recursive i) (IncludeMediaInfo i) (IncludeDeleted i)
     (IncludeHasExplicitSharedMembers i) (IncludeMountedFolders i)
     (IncludeNonDownloadableFiles i).

(** [NewListFolderInput]. *)
Definition NewListFolderInput : t :=
  mk EmptyString false false false false true true.

End ListFolderInput.

Module ListFolderOutput.

(** [Entries []*Metadata]: [None] is a nil entry. *)
Record t : Type := mk {
  Cursor : string;
  HasMore : bool;
  Entries : list (option Metadata.t)
}.

End ListFolderOutput.

Module SearchOptions.

Record t : Type := mk {
  Path : string;
  MaxResults : N;
  FileStatus : string;
  FilenameOnly : bool;
  FileExtensions : list string;
  FileCategories : list string
}.

Definition withPath (o : t) (p : string) : t :=
  mk p (MaxResults o) (FileStatus o) (FilenameOnly o) (FileExtensions o)
     (FileCategories o).

(** [NewSearchOptions]. *)
Definition NewSearchOptions : t := mk EmptyString 100 "active" false [] [].

End SearchOptions.

Module SearchInput.

(** [Options *SearchOptions]: [None] is the nil pointer. *)
Record t : Type := mk {
  Query : string;
  Options : option SearchOptions.t;
  IncludeHighlights : bool
}.

Definition withOptions (i : t) (o : option SearchOptions.t) : t :=
  mk (Query i) o (IncludeHighlights i).

End SearchInput.

Module SearchOutput.

Record HighlightSpan : Type := mkSpan {
  HighlightStr : string;
  IsHighlighted : bool
}.

(** [SearchMatchV2]: the embedded [MetadataV2] is its one field
    [Metadata *Metadata]. *)
Record SearchMatchV2 : Type := mkMatch {
  Metadata : option Metadata.t;
  HighlightSpans : list (option HighlightSpan)
}.

Record t : Type := mk {
  Matches : list (option SearchMatchV2);
  HasMore : bool;
  Cursor : string
}.

End SearchOutput.

(** The methods of [Files] go through [c.call] and [c.download] of
    [client.go] and through [encoding/json], none of which is among the
    sources here: they are parameters.  A call changes the world outside
    (the network, the body being read), which is threaded through as
    [World]; [None] for a body's error is [nil]. *)
Section Files.
Variables World Body Rd : Type.
Variable call : forall In : Type, string -> In -> World -> Body * option error * World.
Variable download :
  forall In : Type, string -> In -> option Rd -> World -> Body * Z * option error * World.
Variable decode : forall Out : Type, Body -> World -> option Out * option error * World.
Variable Close : Body -> World -> World.

(** [func (c *Files) ListFolder(in *ListFolderInput)]: the input as the
    call leaves it, [out], [err], and the world afterwards.  The deferred
    [body.Close()] runs after the decoding. *)
Definition ListFolder (input : ListFolderInput.t) (w : World)
  : ListFolderInput.t * option ListFolderOutput.t * option error * World :=
  let input' :=
    ListFolderInput.withPath input (normalizePath (ListFolderInput.Path input)) in
  let '(body, err, w1) := call _ "/files/list_folder" input' w in
  match err with
  | Some e => (input', None, Some e, w1)
  | None =>
      let '(out, err', w2) := decode ListFolderOutput.t body w1 in
      (input', out, err', Close body w2)
  end.

(** [func (c *Files) Search(in *SearchInput)]. *)
Definition Search (input : SearchInput.t) (w : World)
  : SearchInput.t * option SearchOutput.t * option error * World :=
  let input' :=
    match SearchInput.Options input with
    | Some o =>
        SearchInput.withOptions input
          (Some (SearchOptions.withPath o (normalizePath (SearchOptions.Path o))))
    | None => input
    end in
  let '(body, err, w1) := call _ "/files/search_v2" input' w in
  match err with
  | Some e => (input', None, Some e, w1)
  | None =>
      let '(out, err', w2) := decode SearchOutput.t body w1 in
      (input', out, err', Close body w2)
  end.

(** [func (c *Files) Upload(in *UploadInput)]; [reader] is the field
    [in.Reader], and [UploadOutput] is its embedded [Metadata]. *)
Definition Upload (input : UploadInput.t) (reader : option Rd) (w : World)
  : UploadInput.t * option Metadata.t * option error * World :=
  let input' := UploadInput.checkMode input in
  let '(body, _, err, w1) := download _ "/files/upload" input' reader w in
  match err with
  | Some e => (input', None, Some e, w1)
  | None =>
      let '(out, err', w2) := decode Metadata.t body w1 in
      (input', out, err', Close body w2)
  end.

End Files.

(** The inputs that the package itself can build: [NewUploadInput], any
    [SetMode], any [checkMode]. *)
Inductive BuiltUploadInput : UploadInput.t -> Prop :=
| Built_New : BuiltUploadInput UploadInput.NewUploadInput
| Built_SetMode i mode rev : BuiltUploadInput (UploadInput.SetMode i mode rev)
| Built_checkMode i : BuiltUploadInput i -> BuiltUploadInput (UploadInput.checkMode i).

(* ================================================================== *)
(** ** The error tags and the predicates of [Error] *)

Definition ErrTagOther : string := "other".
Definition ErrTagInternalError : string := "internal_error".
Definition ErrTagNotFound : string := "not_found".
Definition ErrTagNoPermission : string := "no_permission".
Definition ErrTagNotFile : string := "not_file".
Definition ErrTagNotFolder : string := "not_folder".
Definition ErrTagRestrictedContent : string := "restricted_content".
Definition ErrTagUnsupportedContentType : string := "unsupported_content_type".
Definition ErrTagFile : string := "file".
Definition ErrTagFolder : string := "folder".
Definition ErrTagFileAncestor : string := "file_ancestor".
Definition ErrTagNoWritePermission : string := "no_write_permission".
Definition ErrTagInsufficientSpace : string := "insufficient_space".
Definition ErrTagDisallowedName : string := "disallowed_name".
Definition ErrTagTeamFolder : string := "team_folder".
Definition ErrTagTooManyWriteOperations : string := "too_many_write_operations".
Definition ErrTagTooManyFiles : string := "too_many_files".

(** The tags of the [const] block, in its order. *)
Definition ErrTags : list string :=
  [ ErrTagOther; ErrTagInternalError; ErrTagNotFound; ErrTagNoPermission;
    ErrTagNotFile; ErrTagNotFolder; ErrTagRestrictedContent;
    ErrTagUnsupportedContentType; ErrTagFile; ErrTagFolder; ErrTagFileAncestor;
    ErrTagNoWritePermission; ErrTagInsufficientSpace; ErrTagDisallowedName;
    ErrTagTeamFolder; ErrTagTooManyWriteOperations; ErrTagTooManyFiles ].

Module Error.

Record t : Type := mk {
  Status : string;
  StatusCode : Z;
  Summary : string;
  Tag : string
}.

(** [IsNotFound] and [IsNoPermission]: [e.Tag == ErrTag...]. *)
Definition IsNotFound (e : t) : bool := String.eqb (Tag e) ErrTagNotFound.

Definition IsNoPermission (e : t) : bool := String.eqb (Tag e) ErrTagNoPermission.

End Error.

(* ================================================================== *)
(** * Properties *)

(** ** The block size *)

Lemma hashBlockSize_val : Z.of_nat hashBlockSize = 4194304%Z.
Proof. unfold hashBlockSize. rewrite !Nat2Z.inj_mul. reflexivity. Qed.

Lemma hashBlockSize_pos : 0 < hashBlockSize.
Proof. pose proof hashBlockSize_val. lia. Qed.

#[global] Opaque hashBlockSize.

(** ** Digests and their hex encoding *)

Lemma Sum256_length (data : list byte) : length (sha256.Sum256 data) = 32.
Proof.
  unfold sha256.Sum256. destruct (sha256.checkSum data). reflexivity.
Qed.

(** The model against the published test vectors of SHA-256. *)
Example Sum256_vectors :
  fmt.hex (sha256.Sum256 []) =
    "e3b0c44298fc1c149afbf4c8996fb92427ae41e4649b934ca495991b7852b855" /\
  fmt.hex (sha256.Sum256 (bytes_of_string "abc")) =
    "ba7816bf8f01cfea414140de5dae2223b00361a396177a9cb410ff61f20015ad" /\
  fmt.hex (sha256.Sum256 (bytes_of_string
    "abcdbcdecdefdefgefghfghighijhijkijkljklmklmnlmnomnopnopq")) =
    "248d6a61d20638b8e5c026930c3e6039a33ce45964ff2167f6ecedd419db06c1".
Proof. split; [|split]; vm_compute; reflexivity. Qed.

Lemma hex_length (b : list byte) : String.length (fmt.hex b) = 2 * length b.
Proof.
  induction b as [|x b IH]; simpl; [reflexivity|]. rewrite IH. lia.
Qed.

Lemma hexDigit_lower (n : N) : (n < 16)%N -> isLowerHex (fmt.hexDigit n) = true.
Proof.
  intros Hn. unfold fmt.hexDigit, isLowerHex.
  destruct (N.ltb_spec n 10).
  - rewrite N_ascii_embedding by lia.
    apply orb_true_iff; left. apply andb_true_iff; split; apply N.leb_le; lia.
  - rewrite N_ascii_embedding by lia.
    apply orb_true_iff; right. apply andb_true_iff; split; apply N.leb_le; lia.
Qed.

Lemma hex_lower (b : list byte) :
  forallb isLowerHex (list_ascii_of_string (fmt.hex b)) = true.
Proof.
  induction b as [|x b IH]; simpl; [reflexivity|].
  pose proof (Byte.to_N_bounded x) as Hx.
  rewrite !hexDigit_lower, IH; [reflexivity| |].
  - apply N.mod_lt. discriminate.
  - apply N.Div0.div_lt_upper_bound. lia.
Qed.

Lemma unhexDigit_hexDigit (n : N) : (n < 16)%N -> unhexDigit (fmt.hexDigit n) = n.
Proof.
  intros Hn. unfold unhexDigit, fmt.hexDigit.
  destruct (N.ltb_spec n 10); rewrite N_ascii_embedding by lia.
  - destruct (N.ltb_spec (48 + n) 58); lia.
  - destruct (N.ltb_spec (87 + n) 58); lia.
Qed.

Lemma hex_inj (a b : list byte) : fmt.hex a = fmt.hex b -> a = b.
Proof.
  revert b. induction a as [|x a IH]; intros [|y b] Heq; simpl in Heq;
    try discriminate; [reflexivity|].
  injection Heq as Hhi Hlo Hrest. f_equal; [|apply IH, Hrest].
  pose proof (Byte.to_N_bounded x) as Hx. pose proof (Byte.to_N_bounded y) as Hy.
  apply (f_equal unhexDigit) in Hhi, Hlo.
  rewrite !unhexDigit_hexDigit in Hhi
    by (apply N.Div0.div_lt_upper_bound; lia).
  rewrite !unhexDigit_hexDigit in Hlo by (apply N.mod_lt; discriminate).
  assert (Hn : Byte.to_N x = Byte.to_N y).
  { rewrite (N.div_mod (Byte.to_N x) 16), (N.div_mod (Byte.to_N y) 16)
      by discriminate.
    rewrite Hhi, Hlo. reflexivity. }
  pose proof (Byte.of_to_N x) as Ex. rewrite Hn, Byte.of_to_N in Ex.
  inversion Ex. reflexivity.
Qed.

(** ** Splitting into blocks *)

Lemma splitBlocks_fuel (size : nat) :
  0 < size ->
  forall f1 f2 s, length s <= f1 -> length s <= f2 ->
    splitBlocks f1 size s = splitBlocks f2 size s.
Proof.
  intros Hsize. induction f1 as [|f1 IH]; intros f2 s H1 H2.
  - destruct s; [|simpl in H1; lia]. destruct f2; reflexivity.
  - destruct s as [|x s]; [destruct f2; reflexivity|].
    destruct f2 as [|f2]; [simpl in H2; lia|].
    cbn [splitBlocks]. f_equal.
    apply IH; rewrite length_skipn; cbn [length] in *; lia.
Qed.

Lemma spec_blocks_nil : spec_blocks [] = [].
Proof. reflexivity. Qed.

Lemma spec_blocks_cons (s : list byte) :
  s <> [] ->
  spec_blocks s = firstn hashBlockSize s :: spec_blocks (skipn hashBlockSize s).
Proof.
  intros Hs. unfold spec_blocks. pose proof hashBlockSize_pos as HB.
  destruct s as [|x s]; [contradiction|].
  cbn [length splitBlocks]. f_equal.
  apply splitBlocks_fuel; [assumption| |lia].
  rewrite length_skipn. cbn [length]. lia.
Qed.

Lemma spec_blocks_short (s : list byte) :
  s <> [] -> length s <= hashBlockSize -> spec_blocks s = [s].
Proof.
  intros Hs Hle. rewrite spec_blocks_cons by assumption.
  rewrite firstn_all2, skipn_all2 by assumption. reflexivity.
Qed.

Lemma spec_blocks_app (d s : list byte) :
  length d = hashBlockSize -> spec_blocks (d ++ s) = d :: spec_blocks s.
Proof.
  intros Hd. pose proof hashBlockSize_pos as HB.
  rewrite spec_blocks_cons by (destruct d; [simpl in Hd; lia|discriminate]).
  rewrite <- Hd, firstn_app, skipn_app, firstn_all, skipn_all, Nat.sub_diag.
  simpl. rewrite app_nil_r. reflexivity.
Qed.

Lemma spec_accumulator_nil : spec_accumulator [] = [].
Proof. reflexivity. Qed.

Lemma spec_accumulator_short (s : list byte) :
  s <> [] -> length s <= hashBlockSize -> spec_accumulator s = sha256.Sum256 s.
Proof.
  intros Hs Hle. unfold spec_accumulator. rewrite spec_blocks_short by assumption.
  simpl. apply app_nil_r.
Qed.

Lemma spec_accumulator_app (d s : list byte) :
  length d = hashBlockSize ->
  spec_accumulator (d ++ s) = sha256.Sum256 d ++ spec_accumulator s.
Proof.
  intros Hd. unfold spec_accumulator. rewrite spec_blocks_app by assumption.
  reflexivity.
Qed.

Lemma spec_blocks_count (k : nat) :
  forall s, length s = k * hashBlockSize -> length (spec_blocks s) = k.
Proof.
  pose proof hashBlockSize_pos as HB.
  induction k as [|k IH]; intros s Hlen.
  - destruct s; [reflexivity|simpl in Hlen; lia].
  - rewrite <- (firstn_skipn hashBlockSize s).
    rewrite Nat.mul_succ_l in Hlen.
    rewrite spec_blocks_app by (rewrite length_firstn; lia).
    simpl. f_equal. apply IH. rewrite length_skipn. lia.
Qed.

Lemma spec_accumulator_length (s : list byte) :
  length (spec_accumulator s) = 32 * length (spec_blocks s).
Proof.
  unfold spec_accumulator. induction (spec_blocks s) as [|b bs IH]; simpl.
  - reflexivity.
  - rewrite length_app, Sum256_length, IH. lia.
Qed.

(** ** The loop of [ContentHash] *)

Section Loop.
Context {R : Type} `{io.Reader R}.

Lemma hashLoop_unfold fuel (r : R) n err acc :
  hashLoop fuel r n err acc =
  if (n =? hashBlockSize) && isNil err then
    match fuel with
    | O => None
    | S fuel' =>
        match readBlock r acc with
        | inl e => Some (inl e)
        | inr (n', err', acc', r') => hashLoop fuel' r' n' err' acc'
        end
    end
  else Some (inr acc).
Proof. destruct fuel; reflexivity. Qed.

Lemma hashLoop_exit fuel (r : R) n err acc :
  (n =? hashBlockSize) && isNil err = false ->
  hashLoop fuel r n err acc = Some (inr acc).
Proof. intros Hc. rewrite hashLoop_unfold, Hc. reflexivity. Qed.

Lemma hashLoop_enter fuel (r : R) acc :
  hashLoop (S fuel) r hashBlockSize None acc =
  match readBlock r acc with
  | inl e => Some (inl e)
  | inr (n', err', acc', r') => hashLoop fuel r' n' err' acc'
  end.
Proof. rewrite hashLoop_unfold, Nat.eqb_refl. reflexivity. Qed.

(** The first read and the loop body are the same code. *)
Lemma hashBlocks_loop fuel (r : R) :
  hashBlocks fuel r = hashLoop (S fuel) r hashBlockSize None sha256.New.
Proof. rewrite hashLoop_enter. reflexivity. Qed.

(** More fuel never changes a result. *)
Lemma hashLoop_mono fuel : forall fuel' (r : R) n err acc x,
  hashLoop fuel r n err acc = Some x -> fuel <= fuel' ->
  hashLoop fuel' r n err acc = Some x.
Proof.
  induction fuel as [|fuel IH]; intros fuel' r n err acc x Hrun Hle;
    rewrite hashLoop_unfold in Hrun |- *;
    destruct ((n =? hashBlockSize) && isNil err); try assumption;
    try discriminate.
  destruct fuel' as [|fuel']; [lia|].
  destruct (readBlock r acc) as [e|[[[n' err'] acc'] r']]; [assumption|].
  apply IH; [assumption|lia].
Qed.

Lemma ContentHash_mono fuel fuel' (r : R) x :
  ContentHash fuel r = Some x -> fuel <= fuel' -> ContentHash fuel' r = Some x.
Proof.
  unfold ContentHash. intros Hrun Hle.
  destruct (hashBlocks fuel r) as [res|] eqn:Hb; [|discriminate].
  rewrite hashBlocks_loop in Hb.
  rewrite hashBlocks_loop, (hashLoop_mono _ (S fuel') _ _ _ _ _ Hb) by lia.
  assumption.
Qed.

Lemma readBlock_ok (r r' : R) acc d err :
  io.Read r hashBlockSize = (d, err, r') ->
  (err = None \/ err = Some EOF) ->
  readBlock r acc =
  inr (length d, err,
       if 0 <? length d then sha256.Write acc (sha256.Sum256 d) else acc, r').
Proof.
  intros Hread [->| ->]; unfold readBlock; rewrite Hread; reflexivity.
Qed.

Lemma readBlock_err (r r' : R) acc d e :
  io.Read r hashBlockSize = (d, Some e, r') -> e <> EOF ->
  readBlock r acc = inl e.
Proof.
  intros Hread Hne. unfold readBlock. rewrite Hread.
  destruct e; [contradiction|reflexivity|reflexivity].
Qed.

(** A reader that hands over [s] in full blocks takes the loop through
    the accumulator of the specification. *)
Lemma hashLoop_BlockReads (r : R) s :
  BlockReads r s ->
  forall fuel acc, length s / hashBlockSize < fuel ->
    hashLoop fuel r hashBlockSize None acc = Some (inr (acc ++ spec_accumulator s)).
Proof.
  pose proof hashBlockSize_pos as HB.
  induction 1 as [r r' Hread | r r' d Hd Hread | r r' d Hd Hlt Hread _ _
                 | r r' d s Hlen Hread Hrest IH];
    intros fuel acc Hfuel; (destruct fuel as [|fuel]; [lia|]);
    rewrite hashLoop_enter.
  - rewrite (readBlock_ok _ _ _ _ _ Hread) by auto. simpl.
    rewrite hashLoop_exit by apply andb_false_r.
    rewrite spec_accumulator_nil, app_nil_r. reflexivity.
  - pose proof (io.Read_le r hashBlockSize) as Hle. rewrite Hread in Hle.
    simpl in Hle.
    rewrite (readBlock_ok _ _ _ _ _ Hread) by auto.
    rewrite hashLoop_exit by apply andb_false_r.
    destruct d as [|x d]; [contradiction|].
    rewrite spec_accumulator_short; [reflexivity|discriminate|assumption].
  - rewrite (readBlock_ok _ _ _ _ _ Hread) by auto.
    rewrite hashLoop_exit.
    + destruct d as [|x d]; [contradiction|].
      rewrite spec_accumulator_short; [reflexivity|discriminate|lia].
    + apply andb_false_iff; left. apply Nat.eqb_neq. lia.
  - rewrite (readBlock_ok _ _ _ _ _ Hread) by auto.
    rewrite Hlen.
    replace (0 <? hashBlockSize) with true by (symmetry; apply Nat.ltb_lt; lia).
    rewrite IH.
    + unfold sha256.Write. rewrite spec_accumulator_app by assumption.
      rewrite app_assoc. reflexivity.
    + rewrite length_app, Hlen in Hfuel.
      replace (hashBlockSize + length s) with (1 * hashBlockSize + length s) in Hfuel by lia.
      rewrite Nat.div_add_l in Hfuel by lia. lia.
Qed.

Lemma ContentHash_BlockReads (r : R) s fuel :
  BlockReads r s -> length s / hashBlockSize <= fuel ->
  ContentHash fuel r = Some (spec_contentHash s, None).
Proof.
  intros Hr Hfuel. unfold ContentHash.
  rewrite hashBlocks_loop, (hashLoop_BlockReads r s Hr) by lia.
  reflexivity.
Qed.

End Loop.

(** ** [bytes.Reader] hands its content over in full blocks *)

Lemma bytes_Read_nil (cap : nat) :
  io.Read (bytes.NewReader []) cap = ([], Some EOF, bytes.NewReader []).
Proof. reflexivity. Qed.

Lemma bytes_Read_cons (s : list byte) (cap : nat) :
  s <> [] ->
  io.Read (bytes.NewReader s) cap =
  (firstn cap s, None, bytes.NewReader (skipn cap s)).
Proof. destruct s; [contradiction|reflexivity]. Qed.

Lemma bytes_BlockReads_bounded (n : nat) :
  forall s, length s <= n -> BlockReads (bytes.NewReader s) s.
Proof.
  pose proof hashBlockSize_pos as HB.
  induction n as [|n IH]; intros s Hn.
  - destruct s; [|simpl in Hn; lia].
    eapply BlockReads_eof. apply bytes_Read_nil.
  - destruct s as [|x s']; [eapply BlockReads_eof; apply bytes_Read_nil|].
    remember (x :: s') as s eqn:Es.
    assert (Hne : s <> []) by (subst s; discriminate).
    destruct (Nat.lt_ge_cases (length s) hashBlockSize) as [Hlt|Hge].
    + eapply BlockReads_short; [exact Hne|exact Hlt| |].
      * rewrite bytes_Read_cons, firstn_all2, skipn_all2 by (assumption || lia).
        reflexivity.
      * eapply BlockReads_eof. apply bytes_Read_nil.
    + rewrite <- (firstn_skipn hashBlockSize s) at 2.
      eapply BlockReads_full.
      * rewrite length_firstn. lia.
      * apply bytes_Read_cons. exact Hne.
      * apply IH. rewrite length_skipn. subst s. cbn [length] in *. lia.
Qed.

Lemma bytes_BlockReads (s : list byte) : BlockReads (bytes.NewReader s) s.
Proof. apply (bytes_BlockReads_bounded (length s)). lia. Qed.

(** On a [bytes.Reader] the code computes the fingerprint of the
    specification, with one loop iteration for every full block. *)
Lemma ContentHash_bytes (s : list byte) (fuel : nat) :
  length s / hashBlockSize <= fuel ->
  ContentHash fuel (bytes.NewReader s) = Some (spec_contentHash s, None).
Proof. apply ContentHash_BlockReads, bytes_BlockReads. Qed.

(** A [bytes.Reader] never fails: whatever the fuel, a result has no
    error. *)
Lemma ContentHash_bytes_total (s : list byte) (fuel : nat) :
  ContentHash fuel (bytes.NewReader s) = Some (spec_contentHash s, None) \/
  ContentHash fuel (bytes.NewReader s) = None.
Proof.
  destruct (ContentHash fuel (bytes.NewReader s)) as [x|] eqn:Hrun; [left|now right].
  pose proof (ContentHash_bytes s (fuel + length s / hashBlockSize)) as Hbig.
  rewrite (ContentHash_mono _ _ _ _ Hrun) in Hbig by lia.
  apply Hbig. lia.
Qed.

(** ** What a successful and what a failed call return *)

Section Results.
Context {R : Type} `{io.Reader R}.

Lemma readBlock_inl (r : R) acc e :
  readBlock r acc = inl e -> e <> EOF.
Proof.
  unfold readBlock. destruct (io.Read r hashBlockSize) as [[d err] r'].
  destruct err as [e'|]; [|discriminate].
  destruct e'; simpl; intros Heq; inversion Heq; discriminate.
Qed.

Lemma hashLoop_inl fuel : forall (r : R) n err acc e,
  hashLoop fuel r n err acc = Some (inl e) -> e <> EOF.
Proof.
  induction fuel as [|fuel IH]; intros r n err acc e Hrun;
    rewrite hashLoop_unfold in Hrun;
    destruct ((n =? hashBlockSize) && isNil err); try discriminate.
  destruct (readBlock r acc) as [e'|[[[n' err'] acc'] r']] eqn:Hrb.
  - inversion Hrun; subst. eapply readBlock_inl; eassumption.
  - eapply IH; eassumption.
Qed.

(** The two shapes of a result: the hex digest of what was written to
    [resultHash] and no error, or the empty string and an error that is
    not [EOF]. *)
Lemma ContentHash_shape fuel (r : R) h err :
  ContentHash fuel r = Some (h, err) ->
  (err = None /\ exists acc, hashBlocks fuel r = Some (inr acc) /\
                             h = fmt.hex (sha256.Sum256 acc)) \/
  (h = EmptyString /\ exists e, err = Some e /\ e <> EOF /\
                                hashBlocks fuel r = Some (inl e)).
Proof.
  unfold ContentHash. destruct (hashBlocks fuel r) as [[e|acc]|] eqn:Hb;
    intros Heq; inversion Heq; subst.
  - right. split; [reflexivity|]. exists e. repeat split.
    rewrite hashBlocks_loop in Hb. eapply hashLoop_inl; eassumption.
  - left. split; [reflexivity|]. exists acc. split; reflexivity.
Qed.

Lemma hashLoop_read_error (r : R) k r' :
  FullReads r k r' ->
  forall d e r'' fuel acc,
    io.Read r' hashBlockSize = (d, Some e, r'') -> e <> EOF -> k < fuel ->
    hashLoop fuel r hashBlockSize None acc = Some (inl e).
Proof.
  pose proof hashBlockSize_pos as HB.
  induction 1 as [r | r d0 r1 k r' Hread Hlen _ IH];
    intros d e r'' fuel acc Hfail Hne Hfuel;
    (destruct fuel as [|fuel]; [lia|]); rewrite hashLoop_enter.
  - rewrite (readBlock_err _ _ _ _ _ Hfail Hne). reflexivity.
  - rewrite (readBlock_ok _ _ _ _ _ Hread) by auto. rewrite Hlen.
    eapply IH; [eassumption|assumption|lia].
Qed.

(** An error met by a read of [ContentHash] is returned at once, with
    the empty string, whatever that read delivered. *)
Lemma ContentHash_read_error (r : R) k r' d e r'' fuel :
  FullReads r k r' ->
  io.Read r' hashBlockSize = (d, Some e, r'') -> e <> EOF -> k <= fuel ->
  ContentHash fuel r = Some (EmptyString, Some e).
Proof.
  intros Hfull Hfail Hne Hfuel. unfold ContentHash.
  rewrite hashBlocks_loop.
  rewrite (hashLoop_read_error r k r' Hfull d e r'' (S fuel)) by (assumption || lia).
  reflexivity.
Qed.

(** After a read that does not fill the buffer there is no further read:
    the call returns the digest of what has been hashed so far. *)
Lemma ContentHash_short_read (r r' : R) d :
  io.Read r hashBlockSize = (d, None, r') -> length d < hashBlockSize ->
  forall fuel,
    ContentHash fuel r =
    Some (fmt.hex (sha256.Sum256
                     (if 0 <? length d then sha256.Sum256 d else [])), None).
Proof.
  intros Hread Hlt fuel. unfold ContentHash, hashBlocks.
  rewrite (readBlock_ok _ _ _ _ _ Hread) by auto.
  rewrite hashLoop_exit.
  - destruct (0 <? length d); reflexivity.
  - apply andb_false_iff; left. apply Nat.eqb_neq. lia.
Qed.

End Results.

(** ** Readers that answer alike are hashed alike *)

Section Simulation.
Context {R1 R2 : Type} `{io.Reader R1} `{io.Reader R2}.
Variable rel : R1 -> R2 -> Prop.
Hypothesis rel_Read : forall r1 r2, rel r1 r2 ->
  fst (io.Read r1 hashBlockSize) = fst (io.Read r2 hashBlockSize) /\
  rel (snd (io.Read r1 hashBlockSize)) (snd (io.Read r2 hashBlockSize)).

Lemma readBlock_sim r1 r2 acc :
  rel r1 r2 ->
  match readBlock r1 acc, readBlock r2 acc with
  | inl e1, inl e2 => e1 = e2
  | inr (n1, err1, acc1, r1'), inr (n2, err2, acc2, r2') =>
      n1 = n2 /\ err1 = err2 /\ acc1 = acc2 /\ rel r1' r2'
  | _, _ => False
  end.
Proof.
  intros Hrel. destruct (rel_Read r1 r2 Hrel) as [Hfst Hsnd].
  unfold readBlock.
  destruct (io.Read r1 hashBlockSize) as [[d1 e1] r1'].
  destruct (io.Read r2 hashBlockSize) as [[d2 e2] r2'].
  simpl in Hfst, Hsnd. inversion Hfst; subst.
  destruct e2 as [e|]; [destruct (io.isEOF e)|]; simpl; auto.
Qed.

Lemma hashLoop_sim fuel : forall r1 r2 n err acc,
  rel r1 r2 ->
  hashLoop fuel r1 n err acc = hashLoop fuel r2 n err acc.
Proof.
  induction fuel as [|fuel IH]; intros r1 r2 n err acc Hrel;
    [destruct ((n =? hashBlockSize) && isNil err) eqn:Hc;
     rewrite !hashLoop_unfold, Hc; reflexivity|].
  rewrite !hashLoop_unfold.
  destruct ((n =? hashBlockSize) && isNil err); [|reflexivity].
  pose proof (readBlock_sim r1 r2 acc Hrel) as Hsim.
  destruct (readBlock r1 acc) as [e1|[[[n1 err1] acc1] r1']];
    destruct (readBlock r2 acc) as [e2|[[[n2 err2] acc2] r2']];
    try contradiction.
  - subst. reflexivity.
  - destruct Hsim as (-> & -> & -> & Hrel'). apply IH, Hrel'.
Qed.

Lemma ContentHash_sim fuel r1 r2 :
  rel r1 r2 -> ContentHash fuel r1 = ContentHash fuel r2.
Proof.
  intros Hrel. unfold ContentHash.
  rewrite !hashBlocks_loop, (hashLoop_sim _ r1 r2) by assumption.
  reflexivity.
Qed.

End Simulation.

Lemma file_as_bytes_Read (f : os.File) (b : bytes.Reader) :
  file_as_bytes f b ->
  fst (io.Read f hashBlockSize) = fst (io.Read b hashBlockSize) /\
  file_as_bytes (snd (io.Read f hashBlockSize)) (snd (io.Read b hashBlockSize)).
Proof.
  intros [Hdir Hun]. pose proof hashBlockSize_pos as HB.
  destruct f as [name dir un], b as [s]. simpl in Hdir, Hun. subst dir un.
  cbn [io.Read os.reader bytes.reader]. unfold os.Read, bytes.Read.
  cbn [os.isDir os.unread os.Name bytes.unread].
  destruct (Nat.eqb_spec hashBlockSize 0) as [E|_]; [lia|].
  destruct s; split; try reflexivity; split; reflexivity.
Qed.

Lemma ContentHash_file (name : string) (contents : list byte) (fuel : nat) :
  ContentHash fuel (os.mkFile name false contents) =
  ContentHash fuel (bytes.NewReader contents).
Proof.
  apply (ContentHash_sim file_as_bytes file_as_bytes_Read).
  split; reflexivity.
Qed.

(** ** The accumulator at the last line *)

Lemma hashBlocks_BlockReads {R : Type} `{io.Reader R} (r : R) s fuel :
  BlockReads r s -> length s / hashBlockSize <= fuel ->
  hashBlocks fuel r = Some (inr (spec_accumulator s)).
Proof.
  intros Hr Hfuel.
  rewrite hashBlocks_loop, (hashLoop_BlockReads r s Hr) by lia.
  reflexivity.
Qed.

Lemma readBlock_zero {R : Type} `{io.Reader R} (r r' : R) acc err acc' :
  readBlock r acc = inr (0, err, acc', r') -> acc' = acc.
Proof.
  unfold readBlock. destruct (io.Read r hashBlockSize) as [[d e] q].
  destruct e as [e|]; [destruct (io.isEOF e); simpl|];
    intros Heq; inversion Heq as [[Hn He Ha Hq]]; rewrite Hn; reflexivity.
Qed.

Lemma one_lt_hashBlockSize : 1 < hashBlockSize.
Proof. pose proof hashBlockSize_val. lia. Qed.

(** * The content hash against its specification *)

(** ** Reading in pieces *)

(** Read one byte at a time, a stream is hashed as its first byte alone:
    the first read is short, so the loop is never entered. *)
Lemma ContentHash_OneByteReader (x : byte) (s : list byte) (fuel : nat) :
  ContentHash fuel (iotest.NewOneByteReader (bytes.NewReader (x :: s))) =
  Some (fmt.hex (sha256.Sum256 (sha256.Sum256 [x])), None).
Proof.
  pose proof one_lt_hashBlockSize as HB.
  rewrite (ContentHash_short_read _
             (iotest.NewOneByteReader (bytes.NewReader (skipn 1 (x :: s)))) [x]).
  - reflexivity.
  - cbn [io.Read iotest.oneByteReader]. unfold iotest.OneByteReader_Read.
    destruct (Nat.eqb_spec hashBlockSize 0) as [E|_]; [lia|]. reflexivity.
  - simpl. lia.
Qed.

(** C1 (the code at the failing input): the two bytes "ab" read in one
    piece give the fingerprint of "ab", read one byte at a time they give
    another string, the fingerprint of "a"; the output depends on how the
    reader cuts the content into reads. *)
Theorem ContentHash_chunking_divergence :
  ContentHash 1 (bytes.NewReader (bytes_of_string "ab")) =
    Some ("a1ff8f1856b5e24e32e3882edd4a021f48f28a8b21854b77fdef25a97601aace", None) /\
  ContentHash 1 (iotest.NewOneByteReader (bytes.NewReader (bytes_of_string "ab"))) =
    Some ("bf5d3affb73efd2ec6c36ad3112dd933efed63c4e1cbffcfa88e2759c144f2d8", None) /\
  ContentHash 1 (iotest.NewOneByteReader (bytes.NewReader (bytes_of_string "ab"))) =
    ContentHash 1 (bytes.NewReader (bytes_of_string "a")) /\
  ContentHash 1 (iotest.NewOneByteReader (bytes.NewReader (bytes_of_string "ab"))) <>
    ContentHash 1 (bytes.NewReader (bytes_of_string "ab")).
Proof.
  split; [|split; [|split]]; [vm_compute; reflexivity ..|].
  vm_compute. discriminate.
Qed.

(** ** The empty stream *)

(** C2: when the first read returns no byte, with [EOF] (or with no
    error at all), [ContentHash] succeeds with the hex digest of zero
    bytes: nothing was written to the accumulator, and the string is
    e3b0c442...7852b855.  No loop iteration is needed. *)
Theorem ContentHash_empty_stream {R : Type} `{io.Reader R}
    (r r' : R) (err : option error) (fuel : nat) :
  io.Read r hashBlockSize = ([], err, r') ->
  err = Some EOF \/ err = None ->
  ContentHash fuel r = Some (fmt.hex (sha256.Sum256 []), None) /\
  hashBlocks fuel r = Some (inr []) /\
  fmt.hex (sha256.Sum256 []) =
    "e3b0c44298fc1c149afbf4c8996fb92427ae41e4649b934ca495991b7852b855".
Proof.
  intros Hread Herr.
  assert (Hb : hashBlocks fuel r = Some (inr [])).
  { unfold hashBlocks. rewrite (readBlock_ok _ _ _ _ _ Hread) by tauto.
    simpl. apply hashLoop_exit, andb_false_iff. left.
    apply Nat.eqb_neq. pose proof hashBlockSize_pos. lia. }
  split; [|split].
  - unfold ContentHash. rewrite Hb. reflexivity.
  - exact Hb.
  - vm_compute. reflexivity.
Qed.

Lemma ContentHash_empty_stream_witness :
  ContentHash 0 (bytes.NewReader []) = Some (fmt.hex (sha256.Sum256 []), None) /\
  hashBlocks 0 (bytes.NewReader []) = Some (inr []) /\
  fmt.hex (sha256.Sum256 []) =
    "e3b0c44298fc1c149afbf4c8996fb92427ae41e4649b934ca495991b7852b855".
Proof.
  apply (ContentHash_empty_stream
           (bytes.NewReader []) (bytes.NewReader []) (Some EOF) 0).
  - reflexivity.
  - left. reflexivity.
Defined.

(** ** Errors *)

(** When the first read fills the buffer the loop goes on, meets the
    error of the second read and returns it. *)
Lemma ContentHash_TimeoutReader_full_block (s : list byte) (fuel : nat) :
  hashBlockSize <= length s -> 1 <= fuel ->
  ContentHash fuel (iotest.NewTimeoutReader (bytes.NewReader s)) =
  Some (EmptyString, Some iotest.ErrTimeout).
Proof.
  intros Hlen Hfuel. pose proof hashBlockSize_pos as HB.
  assert (Hne : s <> []) by (destruct s; [simpl in Hlen; lia|discriminate]).
  eapply (ContentHash_read_error _ 1); [| |discriminate|exact Hfuel].
  - eapply FullReads_S; [| |apply FullReads_O].
    + cbn [io.Read iotest.timeoutReader]. unfold iotest.TimeoutReader_Read.
      cbn [iotest.count iotest.timeout_r iotest.NewTimeoutReader Nat.eqb].
      rewrite bytes_Read_cons by exact Hne. reflexivity.
    + rewrite length_firstn. lia.
  - reflexivity.
Qed.

(** C3 (the code at the failing input): the second read of this reader
    fails with [ErrTimeout], yet [ContentHash] returns a hash and no
    error, the fingerprint of the first byte: after the short first read
    it reads no more and never meets the error. *)
Theorem ContentHash_misses_later_error :
  snd (fst (io.Read (iotest.NewTimeoutReader (iotest.NewOneByteReader
                       (bytes.NewReader (bytes_of_string "ab")))) hashBlockSize)) = None /\
  snd (fst (io.Read (snd (io.Read (iotest.NewTimeoutReader (iotest.NewOneByteReader
                       (bytes.NewReader (bytes_of_string "ab")))) hashBlockSize))
                    hashBlockSize)) = Some iotest.ErrTimeout /\
  ContentHash 1 (iotest.NewTimeoutReader (iotest.NewOneByteReader
                   (bytes.NewReader (bytes_of_string "ab")))) =
    Some ("bf5d3affb73efd2ec6c36ad3112dd933efed63c4e1cbffcfa88e2759c144f2d8", None).
Proof. split; [|split]; vm_compute; reflexivity. Qed.

(** ** Block boundaries *)

Lemma ContentHash_one_block_bytes (s : list byte) (fuel : nat) :
  length s = hashBlockSize -> 1 <= fuel ->
  hashBlocks fuel (bytes.NewReader s) = Some (inr (sha256.Sum256 s)) /\
  ContentHash fuel (bytes.NewReader s) =
    Some (fmt.hex (sha256.Sum256 (sha256.Sum256 s)), None).
Proof.
  intros Hlen Hfuel. pose proof hashBlockSize_pos as HB.
  assert (Hdiv : length s / hashBlockSize <= fuel)
    by (rewrite Hlen, Nat.div_same; lia).
  assert (Hacc : spec_accumulator s = sha256.Sum256 s).
  { apply spec_accumulator_short; [|lia].
    destruct s; [simpl in Hlen; lia|discriminate]. }
  split.
  - rewrite (hashBlocks_BlockReads _ s) by (apply bytes_BlockReads || assumption).
    rewrite Hacc. reflexivity.
  - rewrite ContentHash_bytes by assumption. unfold spec_contentHash.
    rewrite Hacc. reflexivity.
Qed.

(** The loop runs once on a full block, for the read that finds the end
    of the stream. *)
Lemma ContentHash_one_block_needs_iteration (s : list byte) :
  length s = hashBlockSize -> ContentHash 0 (bytes.NewReader s) = None.
Proof.
  intros Hlen. pose proof hashBlockSize_pos as HB.
  unfold ContentHash, hashBlocks.
  rewrite (readBlock_ok _ (bytes.NewReader (skipn hashBlockSize s)) _
             (firstn hashBlockSize s) None).
  - rewrite length_firstn, Hlen, Nat.min_id, hashLoop_unfold, Nat.eqb_refl.
    reflexivity.
  - apply bytes_Read_cons. destruct s; [simpl in Hlen; lia|discriminate].
  - left. reflexivity.
Qed.

(** C4: a byte string of exactly 4,194,304 bytes leaves one block digest
    (32 bytes) in the accumulator, and the result is the hex digest of that
    digest. *)
Theorem ContentHash_one_block (s : list byte) (fuel : nat) :
  length s = hashBlockSize -> 1 <= fuel ->
  hashBlocks fuel (bytes.NewReader s) = Some (inr (sha256.Sum256 s)) /\
  length (sha256.Sum256 s) = 32 /\
  ContentHash fuel (bytes.NewReader s) =
    Some (fmt.hex (sha256.Sum256 (sha256.Sum256 s)), None).
Proof.
  intros Hlen Hfuel.
  destruct (ContentHash_one_block_bytes s fuel Hlen Hfuel) as [Hb Hc].
  split; [exact Hb|]. split; [apply Sum256_length|exact Hc].
Qed.

Lemma ContentHash_one_block_witness :
  hashBlocks 1 (bytes.NewReader (repeat Byte.x00 hashBlockSize)) =
    Some (inr (sha256.Sum256 (repeat Byte.x00 hashBlockSize))) /\
  length (sha256.Sum256 (repeat Byte.x00 hashBlockSize)) = 32 /\
  ContentHash 1 (bytes.NewReader (repeat Byte.x00 hashBlockSize)) =
    Some (fmt.hex (sha256.Sum256 (sha256.Sum256 (repeat Byte.x00 hashBlockSize))), None).
Proof.
  apply (ContentHash_one_block (repeat Byte.x00 hashBlockSize) 1).
  - apply repeat_length.
  - lia.
Defined.

(** One byte past a full block: two block digests in the accumulator, the
    digest of the full block and then the digest of the last byte. *)
Lemma ContentHash_block_and_byte (s : list byte) (fuel : nat) :
  length s = S hashBlockSize -> 1 <= fuel ->
  hashBlocks fuel (bytes.NewReader s) =
    Some (inr (sha256.Sum256 (firstn hashBlockSize s) ++
               sha256.Sum256 (skipn hashBlockSize s))) /\
  ContentHash fuel (bytes.NewReader s) =
    Some (fmt.hex (sha256.Sum256 (sha256.Sum256 (firstn hashBlockSize s) ++
                                  sha256.Sum256 (skipn hashBlockSize s))), None).
Proof.
  intros Hlen Hfuel. pose proof one_lt_hashBlockSize as HB.
  assert (Hdiv : length s / hashBlockSize <= fuel).
  { rewrite Hlen. replace (S hashBlockSize) with (1 * hashBlockSize + 1) by lia.
    rewrite Nat.div_add_l, Nat.div_small by lia. lia. }
  assert (Hacc : spec_accumulator s =
                 sha256.Sum256 (firstn hashBlockSize s) ++
                 sha256.Sum256 (skipn hashBlockSize s)).
  { rewrite <- (firstn_skipn hashBlockSize s) at 1.
    rewrite spec_accumulator_app by (rewrite length_firstn; lia).
    rewrite spec_accumulator_short; [reflexivity| |rewrite length_skipn; lia].
    intros E. apply (f_equal (@length byte)) in E.
    rewrite length_skipn in E. simpl in E. lia. }
  split.
  - rewrite (hashBlocks_BlockReads _ s) by (apply bytes_BlockReads || assumption).
    rewrite Hacc. reflexivity.
  - rewrite ContentHash_bytes by assumption. unfold spec_contentHash.
    rewrite Hacc. reflexivity.
Qed.

(** Whether that result differs from the result on the full block alone
    is a question about SHA-256 only: the two strings differ exactly when
    the digest of the two block digests is not the digest of the first. *)
Lemma ContentHash_block_and_byte_differs (s : list byte) (fuel : nat) :
  length s = S hashBlockSize -> 1 <= fuel ->
  (ContentHash fuel (bytes.NewReader s) <>
   ContentHash fuel (bytes.NewReader (firstn hashBlockSize s)) <->
   sha256.Sum256 (sha256.Sum256 (firstn hashBlockSize s) ++
                  sha256.Sum256 (skipn hashBlockSize s)) <>
   sha256.Sum256 (sha256.Sum256 (firstn hashBlockSize s))).
Proof.
  intros Hlen Hfuel.
  destruct (ContentHash_block_and_byte s fuel Hlen Hfuel) as [_ ->].
  destruct (ContentHash_one_block_bytes (firstn hashBlockSize s) fuel) as [_ ->];
    [rewrite length_firstn; lia|assumption|].
  split; intros Hne Heq; apply Hne.
  - rewrite Heq. reflexivity.
  - inversion Heq as [Hhex]. apply hex_inj, Hhex.
Qed.

(** From a reader that fills the buffer, k full blocks leave k block
    digests (32 k bytes) in the accumulator at the last line, whether the
    end of the stream comes with the last block or as a further read of
    zero bytes; and a read of zero bytes never writes to the accumulator. *)
Lemma ContentHash_exact_blocks {R : Type} `{io.Reader R}
    (r : R) (s : list byte) (k fuel : nat) :
  BlockReads r s -> length s = k * hashBlockSize -> k <= fuel ->
  hashBlocks fuel r = Some (inr (spec_accumulator s)) /\
  length (spec_blocks s) = k /\
  length (spec_accumulator s) = 32 * k /\
  ContentHash fuel r = Some (fmt.hex (sha256.Sum256 (spec_accumulator s)), None) /\
  (forall (q q' : R) acc err acc',
      readBlock q acc = inr (0, err, acc', q') -> acc' = acc).
Proof.
  intros Hr Hlen Hfuel. pose proof hashBlockSize_pos as HB.
  assert (Hdiv : length s / hashBlockSize <= fuel)
    by (rewrite Hlen, Nat.div_mul; lia).
  split; [|split; [|split; [|split]]].
  - apply hashBlocks_BlockReads; assumption.
  - apply spec_blocks_count, Hlen.
  - rewrite spec_accumulator_length, (spec_blocks_count k) by assumption.
    reflexivity.
  - apply ContentHash_BlockReads; assumption.
  - intros q q' acc err acc'. apply readBlock_zero.
Qed.

Lemma ContentHash_exact_blocks_witness :
  hashBlocks 1 (bytes.NewReader (repeat Byte.x00 hashBlockSize)) =
    Some (inr (spec_accumulator (repeat Byte.x00 hashBlockSize))) /\
  length (spec_blocks (repeat Byte.x00 hashBlockSize)) = 1 /\
  length (spec_accumulator (repeat Byte.x00 hashBlockSize)) = 32 * 1 /\
  ContentHash 1 (bytes.NewReader (repeat Byte.x00 hashBlockSize)) =
    Some (fmt.hex (sha256.Sum256 (spec_accumulator (repeat Byte.x00 hashBlockSize))), None) /\
  (forall (q q' : bytes.Reader) acc err acc',
      readBlock q acc = inr (0, err, acc', q') -> acc' = acc).
Proof.
  apply (ContentHash_exact_blocks
           (bytes.NewReader (repeat Byte.x00 hashBlockSize))
           (repeat Byte.x00 hashBlockSize) 1 1).
  - apply bytes_BlockReads.
  - rewrite repeat_length. lia.
  - lia.
Defined.

(** Read one byte at a time, only the first byte reaches the
    accumulator. *)
Lemma hashBlocks_OneByteReader (x : byte) (s : list byte) (fuel : nat) :
  hashBlocks fuel (iotest.NewOneByteReader (bytes.NewReader (x :: s))) =
  Some (inr (sha256.Sum256 [x])).
Proof.
  pose proof one_lt_hashBlockSize as HB. unfold hashBlocks.
  rewrite (readBlock_ok _
             (iotest.NewOneByteReader (bytes.NewReader (skipn 1 (x :: s))))
             _ [x] None).
  - apply hashLoop_exit. apply andb_false_iff; left.
    apply Nat.eqb_neq. simpl. lia.
  - cbn [io.Read iotest.oneByteReader]. unfold iotest.OneByteReader_Read.
    destruct (Nat.eqb_spec hashBlockSize 0) as [E|_]; [lia|]. reflexivity.
  - left. reflexivity.
Qed.

(** C6 (the code at the failing input): a stream of two full blocks, so
    of a length that is a multiple of 4,194,304, read one byte at a time:
    the accumulator at the last line holds one block digest, that of the
    first byte, where length / 4,194,304 is two; read in full blocks the
    same stream leaves the two digests. *)
Theorem ContentHash_two_blocks_one_digest (fuel : nat) :
  length (repeat Byte.x00 (2 * hashBlockSize)) = 2 * hashBlockSize /\
  hashBlocks fuel (iotest.NewOneByteReader
                     (bytes.NewReader (repeat Byte.x00 (2 * hashBlockSize)))) =
    Some (inr (sha256.Sum256 [Byte.x00])) /\
  length (sha256.Sum256 [Byte.x00]) = 32 * 1 /\
  hashBlocks (2 + fuel) (bytes.NewReader (repeat Byte.x00 (2 * hashBlockSize))) =
    Some (inr (spec_accumulator (repeat Byte.x00 (2 * hashBlockSize)))) /\
  length (spec_accumulator (repeat Byte.x00 (2 * hashBlockSize))) = 32 * 2.
Proof.
  pose proof hashBlockSize_pos as HB.
  assert (Hlen : length (repeat Byte.x00 (2 * hashBlockSize)) = 2 * hashBlockSize)
    by apply repeat_length.
  split; [exact Hlen|]. split; [|split; [|split]].
  - destruct (2 * hashBlockSize) as [|n] eqn:E; [lia|].
    cbn [repeat]. apply hashBlocks_OneByteReader.
  - apply Sum256_length.
  - apply hashBlocks_BlockReads; [apply bytes_BlockReads|].
    rewrite Hlen, Nat.div_mul by lia. lia.
  - rewrite spec_accumulator_length, (spec_blocks_count 2) by exact Hlen.
    reflexivity.
Qed.

(** ** Files *)



(** The two failures side by side: a missing path fails in the open, a
    directory opens and fails in the first read. *)
Example FileContentHash_failures :
  FileContentHash 0 (fun name => if String.eqb name "dir" then Some os.Directory else None)
                  "missing" =
    Some (EmptyString, Some (PathError "open" "missing" "no such file or directory")) /\
  FileContentHash 0 (fun name => if String.eqb name "dir" then Some os.Directory else None)
                  "dir" =
    Some (EmptyString, Some (PathError "read" "dir" "is a directory")).
Proof. split; vm_compute; reflexivity. Qed.

(** ** The shape of the result *)

(** C8: a string returned without an error is the hex encoding of a
    32-byte digest: 64 characters, each one of 0-9 and a-f. *)
Theorem ContentHash_success_is_hex {R : Type} `{io.Reader R}
    (r : R) (fuel : nat) (h : string) :
  ContentHash fuel r = Some (h, None) ->
  String.length h = 64 /\
  forallb isLowerHex (list_ascii_of_string h) = true /\
  exists acc, hashBlocks fuel r = Some (inr acc) /\
              length (sha256.Sum256 acc) = 32 /\
              h = fmt.hex (sha256.Sum256 acc).
Proof.
  intros Hrun.
  destruct (ContentHash_shape _ _ _ _ Hrun) as [[_ (acc & Hb & ->)]|[_ (e & He & _)]];
    [|discriminate].
  split; [|split].
  - rewrite hex_length, Sum256_length. reflexivity.
  - apply hex_lower.
  - exists acc. split; [assumption|]. split; [apply Sum256_length|reflexivity].
Qed.

Lemma ContentHash_success_is_hex_witness :
  String.length "a1ff8f1856b5e24e32e3882edd4a021f48f28a8b21854b77fdef25a97601aace" = 64 /\
  forallb isLowerHex (list_ascii_of_string
    "a1ff8f1856b5e24e32e3882edd4a021f48f28a8b21854b77fdef25a97601aace") = true /\
  exists acc, hashBlocks 0 (bytes.NewReader (bytes_of_string "ab")) = Some (inr acc) /\
              length (sha256.Sum256 acc) = 32 /\
              "a1ff8f1856b5e24e32e3882edd4a021f48f28a8b21854b77fdef25a97601aace" =
                fmt.hex (sha256.Sum256 acc).
Proof.
  apply (ContentHash_success_is_hex (bytes.NewReader (bytes_of_string "ab")) 0).
  vm_compute. reflexivity.
Defined.

(** ** Write modes *)

Lemma SetMode_frame (i : UploadInput.t) (mode : WriteMode) (rev : string) :
  UploadInput.withMode (UploadInput.SetMode i mode rev) (UploadInput.Mode i) = i.
Proof.
  unfold UploadInput.SetMode. destruct i, (String.eqb mode WriteModeUpdate);
    reflexivity.
Qed.

Lemma GetMode_SetMode_other (i : UploadInput.t) (mode : WriteMode) (rev : string) :
  mode <> WriteModeUpdate ->
  UploadInput.GetMode (UploadInput.SetMode i mode rev) = Some (mode, EmptyString).
Proof.
  intros Hne. unfold UploadInput.SetMode.
  destruct (String.eqb_spec mode WriteModeUpdate); [contradiction|reflexivity].
Qed.

Lemma GetMode_NewUploadInput :
  UploadInput.GetMode UploadInput.NewUploadInput = Some (WriteModeAdd, EmptyString).
Proof. reflexivity. Qed.

Lemma GetMode_checkMode_nil (i : UploadInput.t) :
  UploadInput.Mode i = ModeNil ->
  UploadInput.GetMode (UploadInput.checkMode i) = Some (WriteModeAdd, EmptyString).
Proof. intros Hnil. unfold UploadInput.checkMode. rewrite Hnil. reflexivity. Qed.

(** C9: [GetMode] after [SetMode]: the update mode comes back with its
    revision, add and overwrite come back with the empty revision, and a
    nil [Mode] or a [Mode] of another type reads as two empty strings. *)
Theorem GetMode_SetMode (i : UploadInput.t) (rev : string) (v : goValue) :
  UploadInput.GetMode (UploadInput.SetMode i WriteModeUpdate rev) =
    Some (WriteModeUpdate, rev) /\
  UploadInput.GetMode (UploadInput.SetMode i WriteModeAdd rev) =
    Some (WriteModeAdd, EmptyString) /\
  UploadInput.GetMode (UploadInput.SetMode i WriteModeOverwrite rev) =
    Some (WriteModeOverwrite, EmptyString) /\
  UploadInput.GetMode (UploadInput.withMode i ModeNil) =
    Some (EmptyString, EmptyString) /\
  UploadInput.GetMode (UploadInput.withMode i (ModeOther v)) =
    Some (EmptyString, EmptyString).
Proof. split; [|split; [|split; [|split]]]; reflexivity. Qed.

(** ** Metadata tags *)

(** Lowering a byte lowers its code, and two bytes have the same
    lowercase form exactly when they are the same up to case. *)
Lemma lowerByte_code (c : ascii) :
  strings.lowerByte c = ascii_of_N (lowerCode (N_of_ascii c)).
Proof.
  unfold strings.lowerByte, lowerCode.
  destruct ((65 <=? N_of_ascii c) && (N_of_ascii c <=? 90))%N;
    [reflexivity|]. symmetry. apply ascii_N_embedding.
Qed.

Lemma lowerCode_bounded (n : N) : (n < 256 -> lowerCode n < 256)%N.
Proof.
  unfold lowerCode. intros Hn.
  destruct (N.leb_spec 65 n), (N.leb_spec n 90); simpl; lia.
Qed.

Lemma eqFoldByte_lowerCode (m n : N) :
  ((m =? n)
   || ((65 <=? m) && (m <=? 90) && (n =? m + 32))
   || ((65 <=? n) && (n <=? 90) && (m =? n + 32)))%N = true <->
  lowerCode m = lowerCode n.
Proof.
  unfold lowerCode.
  rewrite !orb_true_iff, !andb_true_iff, !N.eqb_eq, !N.leb_le.
  destruct (N.leb_spec 65 m), (N.leb_spec m 90),
           (N.leb_spec 65 n), (N.leb_spec n 90); simpl; lia.
Qed.

Lemma eqFoldByte_iff (c d : ascii) :
  eqFoldByte c d = true <-> strings.lowerByte c = strings.lowerByte d.
Proof.
  unfold eqFoldByte. rewrite eqFoldByte_lowerCode, !lowerByte_code.
  pose proof (lowerCode_bounded _ (N_ascii_bounded c)) as Hc.
  pose proof (lowerCode_bounded _ (N_ascii_bounded d)) as Hd.
  split; [intros ->; reflexivity|].
  intros Heq. apply (f_equal N_of_ascii) in Heq.
  rewrite !N_ascii_embedding in Heq by assumption. exact Heq.
Qed.

Lemma equalFoldASCII_iff (s : string) :
  forall t, equalFoldASCII s t = true <->
            strings.mapBytes strings.lowerByte s = strings.mapBytes strings.lowerByte t.
Proof.
  induction s as [|c s IH]; intros [|d t]; simpl;
    try (split; [reflexivity|reflexivity]);
    try (split; discriminate).
  rewrite andb_true_iff, eqFoldByte_iff, IH. split.
  - intros [-> ->]. reflexivity.
  - intros Heq. injection Heq as H1 H2. split; assumption.
Qed.

Section MetadataTags.
Variable unicodeToLower : string -> string.

Local Abbreviation ToLower := (strings.ToLower unicodeToLower).
Local Abbreviation IsFile := (Metadata.IsFile unicodeToLower).
Local Abbreviation IsFolder := (Metadata.IsFolder unicodeToLower).
Local Abbreviation IsDeleted := (Metadata.IsDeleted unicodeToLower).

Lemma ToLower_ASCII (s : string) :
  strings.isASCII s = true -> ToLower s = strings.mapBytes strings.lowerByte s.
Proof. intros Hs. unfold strings.ToLower. rewrite Hs. reflexivity. Qed.

(** The tag in any mix of cases. *)
Example IsFile_any_case :
  IsFile (Metadata.mk "file" "a" "/a" "/a" "1" 0 "id:a" true false "") = true /\
  IsFile (Metadata.mk "FILE" "a" "/a" "/a" "1" 0 "id:a" true false "") = true /\
  IsFile (Metadata.mk "FiLe" "a" "/a" "/a" "1" 0 "id:a" true false "") = true /\
  IsFolder (Metadata.mk "Folder" "a" "/a" "/a" "" 0 "id:a" true false "") = true /\
  IsDeleted (Metadata.mk "DELETED" "a" "/a" "/a" "" 0 "" true false "") = true /\
  IsFile (Metadata.mk "files" "a" "/a" "/a" "1" 0 "id:a" true false "") = false /\
  IsFile (Metadata.mk "" "a" "/a" "/a" "1" 0 "id:a" true false "") = false.
Proof. repeat (split; [vm_compute; reflexivity|]). vm_compute. reflexivity. Qed.

(** On a tag of ASCII bytes a predicate holds exactly when the tag is
    its word up to the case of the letters. *)
Lemma ToLower_equalFold (tag word : string) :
  strings.isASCII tag = true ->
  strings.mapBytes strings.lowerByte word = word ->
  (ToLower tag = word <-> equalFoldASCII tag word = true).
Proof.
  intros Hascii Hword. rewrite ToLower_ASCII, equalFoldASCII_iff, Hword by exact Hascii.
  reflexivity.
Qed.

(** C10: each predicate holds exactly when the lowercased tag is its
    word; on a tag of ASCII bytes that is exactly when the tag is "file",
    "folder" or "deleted" written in any mix of upper and lower case, so
    two such tags that differ only in case are classified alike; and no
    two of the three predicates hold together. *)
Theorem Metadata_classification (m : Metadata.t) :
  (IsFile m = true <-> ToLower (Metadata.Tag m) = "file") /\
  (IsFolder m = true <-> ToLower (Metadata.Tag m) = "folder") /\
  (IsDeleted m = true <-> ToLower (Metadata.Tag m) = "deleted") /\
  (strings.isASCII (Metadata.Tag m) = true ->
     (IsFile m = true <-> equalFoldASCII (Metadata.Tag m) "file" = true) /\
     (IsFolder m = true <-> equalFoldASCII (Metadata.Tag m) "folder" = true) /\
     (IsDeleted m = true <-> equalFoldASCII (Metadata.Tag m) "deleted" = true)) /\
  (forall m',
     strings.isASCII (Metadata.Tag m) = true ->
     strings.isASCII (Metadata.Tag m') = true ->
     equalFoldASCII (Metadata.Tag m) (Metadata.Tag m') = true ->
     IsFile m' = IsFile m /\ IsFolder m' = IsFolder m /\ IsDeleted m' = IsDeleted m) /\
  IsFile m && IsFolder m = false /\
  IsFile m && IsDeleted m = false /\
  IsFolder m && IsDeleted m = false.
Proof.
  unfold Metadata.IsFile, Metadata.IsFolder, Metadata.IsDeleted,
    MetadataTypeFile, MetadataTypeFolder, MetadataTypeDeleted.
  split; [apply String.eqb_eq|].
  split; [apply String.eqb_eq|].
  split; [apply String.eqb_eq|].
  split.
  { intros Hascii.
    rewrite !String.eqb_eq.
    split; [|split]; apply ToLower_equalFold; try exact Hascii; reflexivity. }
  split.
  { intros m' Hm Hm' Hfold.
    apply equalFoldASCII_iff in Hfold.
    rewrite (ToLower_ASCII _ Hm), (ToLower_ASCII _ Hm'), Hfold. auto. }
  destruct (String.eqb_spec (ToLower (Metadata.Tag m)) "file") as [->|];
    [split; [|split]; reflexivity|].
  destruct (String.eqb_spec (ToLower (Metadata.Tag m)) "folder") as [->|];
    [split; [|split]; reflexivity|].
  split; [|split]; reflexivity.
Qed.

End MetadataTags.

Lemma Metadata_classification_witness :
  strings.isASCII "FiLe" = true /\
  equalFoldASCII "FiLe" "file" = true /\
  Metadata.IsFile (fun s => s)
    (Metadata.mk "FiLe" "a" "/a" "/a" "1" 0 "id:a" true false "") = true /\
  Metadata.IsFolder (fun s => s)
    (Metadata.mk "FiLe" "a" "/a" "/a" "1" 0 "id:a" true false "") = false /\
  Metadata.IsFile (fun s => s)
    (Metadata.mk "FILE" "b" "/b" "/b" "2" 0 "id:b" true false "") = true.
Proof.
  pose proof (Metadata_classification (fun s => s)
                (Metadata.mk "FiLe" "a" "/a" "/a" "1" 0 "id:a" true false ""))
    as (_ & _ & _ & Hascii & Hsame & Hexcl & _).
  assert (Ha : strings.isASCII "FiLe" = true) by reflexivity.
  assert (Hf : equalFoldASCII "FiLe" "file" = true) by reflexivity.
  destruct (Hascii Ha) as (Hfile & _ & _).
  assert (Hfile' : Metadata.IsFile (fun s => s)
            (Metadata.mk "FiLe" "a" "/a" "/a" "1" 0 "id:a" true false "") = true)
    by (apply Hfile; exact Hf).
  split; [exact Ha|]. split; [exact Hf|]. split; [exact Hfile'|]. split.
  - rewrite Hfile' in Hexcl. exact Hexcl.
  - destruct (Hsame (Metadata.mk "FILE" "b" "/b" "/b" "2" 0 "id:b" true false "")
                Ha eq_refl eq_refl) as (Hfile2 & _).
    rewrite Hfile2. exact Hfile'.
Defined.

(* ================================================================== *)
(** * Further properties of the code *)

(** ** The content hash on readers that fill the buffer *)

Lemma spec_blocks_count_any (n : nat) :
  forall s, length s <= n ->
    length (spec_blocks s) = (length s + hashBlockSize - 1) / hashBlockSize.
Proof.
  pose proof hashBlockSize_pos as HB.
  induction n as [|n IH]; intros s Hn.
  - destruct s; [|simpl in Hn; lia].
    rewrite spec_blocks_nil. simpl length. rewrite Nat.div_small by lia.
    reflexivity.
  - destruct s as [|x s']; [rewrite spec_blocks_nil; simpl length;
                            rewrite Nat.div_small by lia; reflexivity|].
    remember (x :: s') as s eqn:Es.
    assert (Hpos : 0 < length s) by (subst s; simpl; lia).
    rewrite spec_blocks_cons by (subst s; discriminate).
    cbn [length]. rewrite IH by (rewrite length_skipn; subst s; cbn [length] in *; lia).
    rewrite length_skipn.
    replace (length s + hashBlockSize - 1)
      with (1 * hashBlockSize + (length s - 1)) by lia.
    rewrite Nat.div_add_l by lia.
    destruct (Nat.lt_ge_cases (length s) hashBlockSize) as [Hlt|Hge].
    + replace (length s - hashBlockSize) with 0 by lia.
      rewrite !Nat.div_small by lia. reflexivity.
    + replace (length s - hashBlockSize + hashBlockSize - 1)
        with (length s - 1) by lia.
      reflexivity.
Qed.

(** X1: on an in-memory reader the code computes, for every content, the
    fingerprint as the specification words it, with one loop iteration for
    every full block of the content. *)
Theorem ContentHash_bytes_refines_spec (s : list byte) (fuel : nat) :
  length s / hashBlockSize <= fuel ->
  ContentHash fuel (bytes.NewReader s) = Some (spec_contentHash s, None).
Proof.
  intros Hfuel. unfold ContentHash.
  rewrite (hashBlocks_BlockReads _ s) by (apply bytes_BlockReads || exact Hfuel).
  reflexivity.
Qed.

Lemma ContentHash_bytes_refines_spec_witness :
  ContentHash 0 (bytes.NewReader (bytes_of_string "abc")) =
  Some (spec_contentHash (bytes_of_string "abc"), None).
Proof.
  apply (ContentHash_bytes_refines_spec (bytes_of_string "abc") 0).
  vm_compute. apply le_n.
Defined.

(** X2: the same for any reader that fills the buffer while content is
    left, whether it reports the end of the stream together with the last
    bytes or by a later read of zero bytes. *)
Theorem ContentHash_block_reader_refines_spec {R : Type} `{io.Reader R}
    (r : R) (s : list byte) (fuel : nat) :
  BlockReads r s -> length s / hashBlockSize <= fuel ->
  hashBlocks fuel r = Some (inr (spec_accumulator s)) /\
  ContentHash fuel r = Some (spec_contentHash s, None).
Proof.
  intros Hr Hfuel. split.
  - apply hashBlocks_BlockReads; assumption.
  - apply ContentHash_BlockReads; assumption.
Qed.

Lemma ContentHash_block_reader_refines_spec_witness :
  hashBlocks 0 (os.mkFile "a.txt" false (bytes_of_string "abc")) =
    Some (inr (spec_accumulator (bytes_of_string "abc"))) /\
  ContentHash 0 (os.mkFile "a.txt" false (bytes_of_string "abc")) =
    Some (spec_contentHash (bytes_of_string "abc"), None).
Proof.
  apply (ContentHash_block_reader_refines_spec
           (os.mkFile "a.txt" false (bytes_of_string "abc"))
           (bytes_of_string "abc") 0).
  - eapply (BlockReads_short _ (os.mkFile "a.txt" false [])).
    + discriminate.
    + pose proof hashBlockSize_val. change (3 < hashBlockSize). lia.
    + vm_compute. reflexivity.
    + eapply BlockReads_eof. vm_compute. reflexivity.
  - vm_compute. apply le_n.
Defined.

(** X3: a non-empty content shorter than one block is hashed with a
    single read: the result is the hex digest of the digest of the whole
    content, and no loop iteration is needed. *)
Theorem ContentHash_below_one_block (s : list byte) (fuel : nat) :
  s <> [] -> length s < hashBlockSize ->
  ContentHash fuel (bytes.NewReader s) =
  Some (fmt.hex (sha256.Sum256 (sha256.Sum256 s)), None).
Proof.
  intros Hne Hlt.
  rewrite ContentHash_bytes by (rewrite Nat.div_small by assumption; lia).
  unfold spec_contentHash. rewrite spec_accumulator_short by (assumption || lia).
  reflexivity.
Qed.

Lemma ContentHash_below_one_block_witness :
  ContentHash 0 (bytes.NewReader (bytes_of_string "abc")) =
  Some (fmt.hex (sha256.Sum256 (sha256.Sum256 (bytes_of_string "abc"))), None).
Proof.
  apply (ContentHash_below_one_block (bytes_of_string "abc") 0).
  - discriminate.
  - pose proof hashBlockSize_val. change (3 < hashBlockSize). lia.
Defined.

(** X4: a full block in front of a content puts its digest in front of
    the accumulator of that content, at the cost of one more iteration. *)
Theorem hashBlocks_prepend_block (d s : list byte) (fuel : nat) :
  length d = hashBlockSize -> length s / hashBlockSize <= fuel ->
  exists acc,
    hashBlocks fuel (bytes.NewReader s) = Some (inr acc) /\
    hashBlocks (S fuel) (bytes.NewReader (d ++ s)) =
      Some (inr (sha256.Sum256 d ++ acc)).
Proof.
  intros Hd Hfuel. pose proof hashBlockSize_pos as HB.
  exists (spec_accumulator s). split.
  - apply hashBlocks_BlockReads; [apply bytes_BlockReads|assumption].
  - rewrite (hashBlocks_BlockReads _ (d ++ s)).
    + rewrite spec_accumulator_app by assumption. reflexivity.
    + apply bytes_BlockReads.
    + rewrite length_app, Hd.
      replace (hashBlockSize + length s) with (1 * hashBlockSize + length s) by lia.
      rewrite Nat.div_add_l by lia. lia.
Qed.

Lemma hashBlocks_prepend_block_witness :
  exists acc,
    hashBlocks 0 (bytes.NewReader (bytes_of_string "abc")) = Some (inr acc) /\
    hashBlocks 1 (bytes.NewReader (repeat Byte.x00 hashBlockSize ++ bytes_of_string "abc")) =
      Some (inr (sha256.Sum256 (repeat Byte.x00 hashBlockSize) ++ acc)).
Proof.
  apply (hashBlocks_prepend_block
           (repeat Byte.x00 hashBlockSize) (bytes_of_string "abc") 0).
  - apply repeat_length.
  - rewrite Nat.div_small; [apply le_n|].
    pose proof hashBlockSize_val. change (3 < hashBlockSize). lia.
Defined.

(** X5: on an in-memory reader the accumulator at the last line holds
    one 32-byte digest for every started block of the content: the length
    divided by the block size, rounded up. *)
Theorem hashBlocks_digest_count (s : list byte) (fuel : nat) :
  length s / hashBlockSize <= fuel ->
  exists acc,
    hashBlocks fuel (bytes.NewReader s) = Some (inr acc) /\
    length acc = 32 * ((length s + hashBlockSize - 1) / hashBlockSize).
Proof.
  intros Hfuel. exists (spec_accumulator s). split.
  - apply hashBlocks_BlockReads; [apply bytes_BlockReads|assumption].
  - rewrite spec_accumulator_length, (spec_blocks_count_any (length s)) by lia.
    reflexivity.
Qed.

Lemma hashBlocks_digest_count_witness :
  exists acc,
    hashBlocks 1 (bytes.NewReader (repeat Byte.x00 hashBlockSize ++ bytes_of_string "abc")) =
      Some (inr acc) /\
    length acc =
      32 * ((length (repeat Byte.x00 hashBlockSize ++ bytes_of_string "abc")
             + hashBlockSize - 1) / hashBlockSize).
Proof.
  apply (hashBlocks_digest_count
           (repeat Byte.x00 hashBlockSize ++ bytes_of_string "abc") 1).
  pose proof hashBlockSize_val.
  rewrite length_app, repeat_length.
  replace (hashBlockSize + length (bytes_of_string "abc"))
    with (1 * hashBlockSize + 3) by (change (length (bytes_of_string "abc")) with 3; lia).
  rewrite Nat.div_add_l, Nat.div_small by lia. lia.
Defined.

(** ** Failures *)

(** X6: when the reads before it each filled the buffer without an
    error, a read that returns an error other than [EOF] ends the call at
    once with the empty string and that error, whatever bytes came with
    it. *)
Theorem ContentHash_returns_read_error {R : Type} `{io.Reader R}
    (r r' r'' : R) (k : nat) (d : list byte) (e : error) (fuel : nat) :
  FullReads r k r' ->
  io.Read r' hashBlockSize = (d, Some e, r'') -> e <> EOF -> k <= fuel ->
  ContentHash fuel r = Some (EmptyString, Some e).
Proof.
  intros Hfull Hfail Hne Hfuel.
  eapply ContentHash_read_error; eassumption.
Qed.

Lemma ContentHash_returns_read_error_witness :
  ContentHash 1 (iotest.NewTimeoutReader
                   (bytes.NewReader (repeat Byte.x00 hashBlockSize))) =
  Some (EmptyString, Some iotest.ErrTimeout).
Proof.
  apply (ContentHash_returns_read_error
           (iotest.NewTimeoutReader (bytes.NewReader (repeat Byte.x00 hashBlockSize)))
           (iotest.mkTimeoutReader
              (bytes.NewReader (skipn hashBlockSize (repeat Byte.x00 hashBlockSize))) 1)
           (iotest.mkTimeoutReader
              (bytes.NewReader (skipn hashBlockSize (repeat Byte.x00 hashBlockSize))) 2)
           1 [] iotest.ErrTimeout 1).
  - eapply FullReads_S; [| |apply FullReads_O].
    + cbn [io.Read iotest.timeoutReader]. unfold iotest.TimeoutReader_Read.
      cbn [iotest.count iotest.timeout_r iotest.NewTimeoutReader Nat.eqb].
      rewrite bytes_Read_cons; [reflexivity|].
      pose proof hashBlockSize_pos. intros E.
      apply (f_equal (@length byte)) in E. rewrite repeat_length in E.
      simpl in E. lia.
    + rewrite length_firstn, repeat_length. lia.
  - reflexivity.
  - discriminate.
  - lia.
Defined.

(** X7: whatever the reader does, an error is returned with the empty
    string and is never [EOF]: the end of the stream is not a failure,
    and no hash comes with an error. *)
Theorem ContentHash_error_shape {R : Type} `{io.Reader R}
    (r : R) (fuel : nat) (h : string) (e : error) :
  ContentHash fuel r = Some (h, Some e) ->
  h = EmptyString /\ e <> EOF.
Proof.
  intros Hrun.
  destruct (ContentHash_shape _ _ _ _ Hrun)
    as [[Hnone _]|[Hh (e' & He & Hne & _)]]; [discriminate|].
  inversion He; subst. split; [reflexivity|assumption].
Qed.

Lemma ContentHash_error_shape_witness :
  ContentHash 0 (os.mkFile "dir" true []) =
    Some (EmptyString, Some (PathError "read" "dir" "is a directory")) /\
  (EmptyString = EmptyString /\ PathError "read" "dir" "is a directory" <> EOF).
Proof.
  assert (Hrun : ContentHash 0 (os.mkFile "dir" true []) =
                 Some (EmptyString, Some (PathError "read" "dir" "is a directory")))
    by (vm_compute; reflexivity).
  split; [exact Hrun|].
  exact (ContentHash_error_shape (os.mkFile "dir" true []) 0 _ _ Hrun).
Defined.

(** X8: whatever the reader does, the accumulator at the last line is a
    whole number of 32-byte digests, at most one for each read made. *)
Theorem hashBlocks_whole_digests {R : Type} `{io.Reader R}
    (r : R) (fuel : nat) (acc : sha256.digest) :
  hashBlocks fuel r = Some (inr acc) ->
  exists j, j <= S fuel /\ length acc = 32 * j.
Proof.
  rewrite hashBlocks_loop.
  assert (Hgen : forall f (q : R) n err a0 a1,
             hashLoop f q n err a0 = Some (inr a1) ->
             exists j, j <= f /\ length a1 = length a0 + 32 * j).
  { induction f as [|f IH]; intros q n err a0 a1 Hrun;
      rewrite hashLoop_unfold in Hrun;
      destruct ((n =? hashBlockSize) && isNil err);
      try discriminate;
      try (inversion Hrun; subst; exists 0; split; lia).
    unfold readBlock in Hrun.
    destruct (io.Read q hashBlockSize) as [[data e] q'].
    assert (Hstep : forall a,
               hashLoop f q' (length data) e a = Some (inr a1) ->
               a = (if 0 <? length data
                    then sha256.Write a0 (sha256.Sum256 data) else a0) ->
               exists j, j <= S f /\ length a1 = length a0 + 32 * j).
    { intros a Ha Ea. destruct (IH _ _ _ _ _ Ha) as (j & Hj & Hlen).
      subst a. destruct (0 <? length data).
      - unfold sha256.Write in Hlen.
        rewrite length_app, Sum256_length in Hlen. exists (S j). split; lia.
      - exists j. split; lia. }
    destruct e as [e|]; [destruct (io.isEOF e); simpl in Hrun|];
      try discriminate; eapply Hstep; try eassumption; reflexivity. }
  intros Hrun. destruct (Hgen _ _ _ _ _ _ Hrun) as (j & Hj & Hlen).
  exists j. split; [assumption|]. simpl in Hlen. exact Hlen.
Qed.

Lemma hashBlocks_whole_digests_witness :
  hashBlocks 0 (iotest.NewOneByteReader (bytes.NewReader (bytes_of_string "ab"))) =
    Some (inr (sha256.Sum256 (bytes_of_string "a"))) /\
  exists j, j <= 1 /\
    length (sha256.Sum256 (bytes_of_string "a")) = 32 * j.
Proof.
  assert (Hrun : hashBlocks 0 (iotest.NewOneByteReader
                                 (bytes.NewReader (bytes_of_string "ab"))) =
                 Some (inr (sha256.Sum256 (bytes_of_string "a"))))
    by (vm_compute; reflexivity).
  split; [exact Hrun|].
  exact (hashBlocks_whole_digests _ 0 _ Hrun).
Defined.

(** ** Write modes *)

(** X10: [SetMode] changes the field [Mode] and nothing else, and of two
    calls in a row only the second counts. *)
Theorem SetMode_only_Mode (i : UploadInput.t) (m1 m2 : WriteMode) (r1 r2 : string) :
  UploadInput.Path (UploadInput.SetMode i m1 r1) = UploadInput.Path i /\
  UploadInput.AutoRename (UploadInput.SetMode i m1 r1) = UploadInput.AutoRename i /\
  UploadInput.ClientModified (UploadInput.SetMode i m1 r1) = UploadInput.ClientModified i /\
  UploadInput.Mute (UploadInput.SetMode i m1 r1) = UploadInput.Mute i /\
  UploadInput.StrictConflict (UploadInput.SetMode i m1 r1) = UploadInput.StrictConflict i /\
  UploadInput.SetMode (UploadInput.SetMode i m1 r1) m2 r2 = UploadInput.SetMode i m2 r2.
Proof.
  unfold UploadInput.SetMode.
  destruct i, (String.eqb m1 WriteModeUpdate), (String.eqb m2 WriteModeUpdate);
    repeat split; reflexivity.
Qed.

Lemma GetMode_SetMode_eq (i : UploadInput.t) (mode : WriteMode) (rev : string) :
  UploadInput.GetMode (UploadInput.SetMode i mode rev) =
  Some (mode, if String.eqb mode WriteModeUpdate then rev else EmptyString).
Proof.
  unfold UploadInput.SetMode.
  destruct (String.eqb_spec mode WriteModeUpdate) as [->|Hne]; reflexivity.
Qed.

(** X11: [SetMode] checks nothing: whatever string is given as the mode,
    [GetMode] gives it back, together with the revision when the mode is
    "update" and with the empty string otherwise (the revision given with
    another mode is dropped). *)
Theorem GetMode_SetMode_any (i : UploadInput.t) (mode : WriteMode) (rev : string) :
  UploadInput.GetMode (UploadInput.SetMode i mode rev) =
  Some (mode, if String.eqb mode WriteModeUpdate then rev else EmptyString).
Proof.
  unfold UploadInput.SetMode.
  destruct (String.eqb_spec mode WriteModeUpdate) as [Eupdate|Hother].
  - rewrite Eupdate. reflexivity.
  - reflexivity.
Qed.

(** X12: what [GetMode] reads from an input that [SetMode] wrote, given
    back to [SetMode], leaves that input as it is. *)
Theorem SetMode_GetMode_roundtrip (i : UploadInput.t) (mode m : WriteMode) (rev r : string) :
  UploadInput.GetMode (UploadInput.SetMode i mode rev) = Some (m, r) ->
  UploadInput.SetMode (UploadInput.SetMode i mode rev) m r =
  UploadInput.SetMode i mode rev.
Proof.
  rewrite GetMode_SetMode_eq. intros Heq. inversion Heq; subst m r.
  unfold UploadInput.SetMode.
  destruct (String.eqb mode WriteModeUpdate) eqn:E; destruct i; cbn;
    rewrite ?E; reflexivity.
Qed.

Lemma SetMode_GetMode_roundtrip_witness :
  UploadInput.SetMode
    (UploadInput.SetMode UploadInput.NewUploadInput WriteModeUpdate "a1c610d2f")
    WriteModeUpdate "a1c610d2f" =
  UploadInput.SetMode UploadInput.NewUploadInput WriteModeUpdate "a1c610d2f".
Proof.
  apply (SetMode_GetMode_roundtrip
           UploadInput.NewUploadInput WriteModeUpdate WriteModeUpdate
           "a1c610d2f" "a1c610d2f").
  reflexivity.
Defined.

Lemma checkMode_cases (i : UploadInput.t) :
  UploadInput.Mode (UploadInput.checkMode i) <> ModeNil /\
  (UploadInput.Mode i = ModeNil ->
     UploadInput.checkMode i = UploadInput.withMode i (ModeWriteMode WriteModeAdd)) /\
  (UploadInput.Mode i <> ModeNil -> UploadInput.checkMode i = i) /\
  UploadInput.checkMode (UploadInput.checkMode i) = UploadInput.checkMode i.
Proof.
  unfold UploadInput.checkMode.
  destruct i as [p m a c mu s]; destruct m as [|q|wm|v]; cbn;
    (split; [discriminate|]); (split; [intros E; try discriminate E; reflexivity|]);
    (split; [intros E; try reflexivity; contradiction|]); reflexivity.
Qed.

(** X13: [checkMode] turns a nil [Mode] into the add mode and leaves
    every other input as it is; afterwards [Mode] is never nil, and a
    second [checkMode] changes nothing. *)
Theorem checkMode_defaults (i : UploadInput.t) :
  UploadInput.Mode (UploadInput.checkMode i) <> ModeNil /\
  (UploadInput.Mode i = ModeNil ->
     UploadInput.checkMode i = UploadInput.withMode i (ModeWriteMode WriteModeAdd)) /\
  (UploadInput.Mode i <> ModeNil -> UploadInput.checkMode i = i) /\
  UploadInput.checkMode (UploadInput.checkMode i) = UploadInput.checkMode i.
Proof.
  destruct i as [path mode autorename modified mute strict].
  destruct mode as [|p|m|v]; cbn.
  - split; [discriminate|]. split; [reflexivity|]. split; [contradiction|].
    reflexivity.
  - split; [discriminate|]. split; [discriminate|]. split; reflexivity.
  - split; [discriminate|]. split; [discriminate|]. split; reflexivity.
  - split; [discriminate|]. split; [discriminate|]. split; reflexivity.
Qed.

(** X14: on every input the package can build, by [NewUploadInput],
    [SetMode] and [checkMode], [GetMode] returns: the nil pointer that
    would make it panic is never stored. *)
Theorem GetMode_of_built (i : UploadInput.t) :
  BuiltUploadInput i -> exists m r, UploadInput.GetMode i = Some (m, r).
Proof.
  induction 1 as [|i mode rev|i Hb IH].
  - eexists _, _. reflexivity.
  - eexists _, _. apply GetMode_SetMode_eq.
  - destruct IH as (m & r & Hget).
    unfold UploadInput.checkMode.
    destruct (UploadInput.Mode i) eqn:Em;
      try (exists m, r; exact Hget).
    eexists _, _. apply GetMode_SetMode_eq.
Qed.

Lemma GetMode_of_built_witness :
  exists m r,
    UploadInput.GetMode
      (UploadInput.checkMode
         (UploadInput.SetMode UploadInput.NewUploadInput WriteModeUpdate "a1c610d2f")) =
    Some (m, r).
Proof.
  apply (GetMode_of_built
           (UploadInput.checkMode
              (UploadInput.SetMode UploadInput.NewUploadInput WriteModeUpdate "a1c610d2f"))).
  apply Built_checkMode, Built_SetMode.
Defined.

(** ** The calls that prepare their input *)

Lemma normalizePath_not_root (s : string) : normalizePath s <> "/".
Proof.
  unfold normalizePath. destruct (String.eqb_spec s "/"); [discriminate|assumption].
Qed.

Lemma normalizePath_other (s : string) : s <> "/" -> normalizePath s = s.
Proof.
  unfold normalizePath. intros Hne.
  destruct (String.eqb_spec s "/"); [contradiction|reflexivity].
Qed.

Section FilesProperties.
Variables World Body Rd : Type.
Variable call : forall In : Type, string -> In -> World -> Body * option error * World.
Variable download :
  forall In : Type, string -> In -> option Rd -> World -> Body * Z * option error * World.
Variable decode : forall Out : Type, Body -> World -> option Out * option error * World.
Variable Close : Body -> World -> World.

Local Abbreviation c_ListFolder := (ListFolder World Body call decode Close).
Local Abbreviation c_Search := (Search World Body call decode Close).
Local Abbreviation c_Upload := (Upload World Body Rd download decode Close).

(** X15: whatever the transport, [ListFolder] sends the root as the
    empty path: the path "/" and the empty path give the same call and the
    same result, the path sent is never "/", any other path is sent as it
    is, and the caller's input is left with the path that was sent.  When
    the transport fails, its error is returned with a nil output, and
    nothing is decoded or closed. *)
Theorem ListFolder_root_path (input : ListFolderInput.t) (w : World) :
  (exists out err w',
      c_ListFolder input w =
      (ListFolderInput.withPath input (normalizePath (ListFolderInput.Path input)),
       out, err, w')) /\
  normalizePath (ListFolderInput.Path input) <> "/" /\
  (ListFolderInput.Path input <> "/" ->
     ListFolderInput.withPath input (normalizePath (ListFolderInput.Path input)) = input) /\
  c_ListFolder (ListFolderInput.withPath input "/") w =
    c_ListFolder (ListFolderInput.withPath input EmptyString) w /\
  (forall body e w1,
      call _ "/files/list_folder"
           (ListFolderInput.withPath input (normalizePath (ListFolderInput.Path input))) w =
        (body, Some e, w1) ->
      c_ListFolder input w =
      (ListFolderInput.withPath input (normalizePath (ListFolderInput.Path input)),
       None, Some e, w1)).
Proof.
  split; [|split; [|split; [|split]]].
  - unfold ListFolder.
    destruct (call _ _ _ w) as [[body [e|]] w1]; [eexists _, _, _; reflexivity|].
    destruct (decode _ body w1) as [[out err'] w2]. eexists _, _, _; reflexivity.
  - apply normalizePath_not_root.
  - intros Hne. rewrite normalizePath_other by assumption. destruct input; reflexivity.
  - reflexivity.
  - intros body e w1 Hcall. unfold ListFolder. rewrite Hcall. reflexivity.
Qed.



End FilesProperties.

(** ** Error tags *)

(** X18: the seventeen error tags are pairwise different, and the two
    predicates of [Error] compare the tag exactly: each holds for its one
    tag only, in that spelling, and the two never hold together. *)
Theorem Error_tags_distinct (e : Error.t) :
  NoDup ErrTags /\
  (Error.IsNotFound e = true <-> Error.Tag e = "not_found") /\
  (Error.IsNoPermission e = true <-> Error.Tag e = "no_permission") /\
  Error.IsNotFound e && Error.IsNoPermission e = false /\
  (forall status code summary,
      Error.IsNotFound (Error.mk status code summary "NOT_FOUND") = false).
Proof.
  split; [|split; [|split; [|split]]].
  - cbv. repeat (constructor; [cbv [In]; intuition discriminate|]).
    constructor.
  - apply String.eqb_eq.
  - apply String.eqb_eq.
  - unfold Error.IsNotFound, Error.IsNoPermission.
    destruct (String.eqb_spec (Error.Tag e) ErrTagNotFound) as [->|]; reflexivity.
  - reflexivity.
Qed.
